(** * Black-Scholes pricing kernel and batch evaluator

    A shallow embedding of [src/black_scholes.cpp], [src/black_scholes.hpp]
    and [src/batch_pricer.hpp] of the options pricing engine.

    Numbers.  A C++ [double] is one of: a finite number, embedded as the
    real number it denotes, with the two zeros kept apart; plus or minus
    infinity; NaN.  The arithmetic operations and the functions of
    [<cmath>] follow IEEE 754 and Annex F of the C standard on the zeros,
    the infinities and NaN (1/0 is an infinity, 0/0 is NaN, erfc of minus
    infinity is 2, exp of minus infinity is 0, a finite number divided by
    an infinity is a zero, and so on).  On finite numbers they are exact:
    rounding, overflow and underflow are not modelled, so a finite result
    is the exact value of the formula that computes it.  What is proved of
    a finite result is an identity, a closed form, a limit or a bound, which
    the rounded result of the code keeps up to rounding; where rounding can
    turn a strict inequality into an equality (a result that saturates at
    0 or 1, or underflows), the bound is stated as a non-strict one.
    [std::erfc] is built from the Riemann integral of the Gaussian.

    Part I holds the definitions, Part II the lemmas about them, Part III
    the claims of the specification, Part IV further properties of the
    code. *)

From Stdlib Require Import Reals Lra Lia List.
Import ListNotations.

Local Open Scope R_scope.

(* ================================================================== *)
(** * Part I: definitions *)
(* ================================================================== *)

(** ** The error function on the reals *)

(** The integrand of the error function. *)
Definition gauss (t : R) : R := exp (- (t * t)).

Lemma gauss_derivable (t : R) : derivable_pt_lim gauss t (- (2 * t) * gauss t).
Proof.
  unfold gauss.
  replace (- (2 * t) * exp (- (t * t)))
    with (exp (- (t * t)) * (- (1 * t + t * 1))) by ring.
  apply (derivable_pt_lim_comp (fun u => - (u * u)) exp).
  - apply (derivable_pt_lim_opp (fun u => u * u)).
    apply (derivable_pt_lim_mult id id); apply derivable_pt_lim_id.
  - apply derivable_pt_lim_exp.
Qed.

Lemma gauss_continuous (t : R) : continuity_pt gauss t.
Proof.
  apply derivable_continuous_pt.
  exists (- (2 * t) * gauss t). apply gauss_derivable.
Qed.

Lemma gauss_integrable (a b : R) : Riemann_integrable gauss a b.
Proof.
  destruct (Rle_dec a b) as [Hab | Hab].
  - apply continuity_implies_RiemannInt; [exact Hab | intros; apply gauss_continuous].
  - apply RiemannInt_P1.
    apply continuity_implies_RiemannInt; [lra | intros; apply gauss_continuous].
Qed.

(** [gauss_int x] is the integral of [exp (- t^2)] for [t] from [0] to [x]. *)
Definition gauss_int (x : R) : R := RiemannInt (gauss_integrable 0 x).

(** erf x = 2/sqrt(pi) * integral from 0 to x of exp(-t^2) dt. *)
Definition erf (x : R) : R := 2 / sqrt PI * gauss_int x.

(** The complementary error function, erfc x = 1 - erf x. *)
Definition erfc (x : R) : R := 1 - erf x.

(** Auxiliary functions for the bound on [erf]. *)

(** [cos_int k t] is the integral of [cos ^ k] from [0] to [t], by the
    reduction formula. *)
Fixpoint cos_int (k : nat) (t : R) {struct k} : R :=
  match k with
  | O => t
  | S O => sin t
  | S (S j) => (cos t ^ S j * sin t + INR (S j) * cos_int j t) / INR (S (S j))
  end.

(** The Wallis integrals: [cos ^ k] integrated from [0] to [PI / 2]. *)
Definition wallis (k : nat) : R := cos_int k (PI / 2).

(** ** Doubles *)

(** The values of a [double].  [Finite x] is the finite double that denotes
    the real number [x]; [Finite 0] is the zero of positive sign and
    [NegZero] the zero of negative sign.  [PInf] and [NInf] are the
    infinities. *)
Inductive double : Type :=
| Finite (x : R)
| NegZero
| PInf
| NInf
| NaN.

Coercion Finite : R >-> double.

(** The sign bit; that of a NaN is never looked at. *)
Definition signbit (a : double) : bool :=
  match a with
  | Finite x => if Rlt_dec x 0 then true else false
  | NegZero | NInf => true
  | PInf | NaN => false
  end.

Definition zero (s : bool) : double := if s then NegZero else Finite 0.

Definition infinity (s : bool) : double := if s then NInf else PInf.

(** The finite double of value [x]; the sign [s] decides which zero. *)
Definition finite (s : bool) (x : R) : double :=
  if Req_dec_T x 0 then zero s else Finite x.

(** The real value of a finite double; [None] on an infinity or a NaN. *)
Definition value (a : double) : option R :=
  match a with
  | Finite x => Some x
  | NegZero => Some 0
  | PInf | NInf | NaN => None
  end.

(** Unary minus flips the sign bit. *)
Definition fneg (a : double) : double :=
  match a with
  | Finite x => finite true (- x)
  | NegZero => Finite 0
  | PInf => NInf
  | NInf => PInf
  | NaN => NaN
  end.

(** Addition: the infinities of opposite sign add to NaN; a sum that is
    zero is the positive zero unless both terms are the negative zero. *)
Definition fadd (a b : double) : double :=
  match a, b with
  | NaN, _ | _, NaN => NaN
  | PInf, NInf | NInf, PInf => NaN
  | PInf, _ | _, PInf => PInf
  | NInf, _ | _, NInf => NInf
  | NegZero, NegZero => NegZero
  | NegZero, Finite y => Finite y
  | Finite x, NegZero => Finite x
  | Finite x, Finite y => Finite (x + y)
  end.

Definition fsub (a b : double) : double := fadd a (fneg b).

(** Multiplication: the sign is the exclusive or of the signs; zero times
    an infinity is NaN. *)
Definition fmul (a b : double) : double :=
  let s := xorb (signbit a) (signbit b) in
  match a, b with
  | NaN, _ | _, NaN => NaN
  | _, _ =>
    match value a, value b with
    | Some x, Some y => finite s (x * y)
    | Some x, None => if Req_dec_T x 0 then NaN else infinity s
    | None, Some y => if Req_dec_T y 0 then NaN else infinity s
    | None, None => infinity s
    end
  end.

(** Division: a non-zero number over a zero is an infinity, 0/0 and
    infinity over infinity are NaN, a finite number over an infinity is a
    zero. *)
Definition fdiv (a b : double) : double :=
  let s := xorb (signbit a) (signbit b) in
  match a, b with
  | NaN, _ | _, NaN => NaN
  | _, _ =>
    match value a, value b with
    | Some x, Some y =>
      if Req_dec_T y 0
      then (if Req_dec_T x 0 then NaN else infinity s)
      else finite s (x / y)
    | Some _, None => zero s
    | None, Some _ => infinity s
    | None, None => NaN
    end
  end.

Declare Scope double_scope.
Delimit Scope double_scope with D.
Bind Scope double_scope with double.
Notation "x + y" := (fadd x y) : double_scope.
Notation "x - y" := (fsub x y) : double_scope.
Notation "x * y" := (fmul x y) : double_scope.
Notation "x / y" := (fdiv x y) : double_scope.
Notation "- x" := (fneg x) : double_scope.

(** The functions of [<cmath>] that the kernel calls. *)
Module std.

(** [std::sqrt]: NaN on a negative argument, the zeros and plus infinity
    are returned unchanged. *)
Definition sqrt (a : double) : double :=
  match a with
  | Finite x => if Rle_dec 0 x then Finite (R_sqrt.sqrt x) else NaN
  | NegZero => NegZero
  | PInf => PInf
  | NInf | NaN => NaN
  end.

(** [std::log]: minus infinity at either zero, NaN on a negative
    argument. *)
Definition log (a : double) : double :=
  match a with
  | Finite x =>
    if Rlt_dec 0 x then Finite (ln x)
    else if Req_dec_T x 0 then NInf else NaN
  | NegZero => NInf
  | PInf => PInf
  | NInf | NaN => NaN
  end.

(** [std::exp]: 0 at minus infinity. *)
Definition exp (a : double) : double :=
  match a with
  | Finite x => Finite (Rtrigo_def.exp x)
  | NegZero => Finite 1
  | PInf => PInf
  | NInf => Finite 0
  | NaN => NaN
  end.

(** [std::erfc]: 0 at plus infinity, 2 at minus infinity. *)
Definition erfc (a : double) : double :=
  match a with
  | Finite x => Finite (erfc x)
  | NegZero => Finite 1
  | PInf => Finite 0
  | NInf => Finite 2
  | NaN => NaN
  end.

End std.

(** ** black_scholes.hpp *)

(** [enum class OptionType { CALL, PUT }]. *)
Inductive OptionType : Type := CALL | PUT.

(** [struct Greeks]. *)
Record Greeks : Type := mkGreeks {
  delta : double;
  gamma : double;
  vega : double;
  theta : double
}.

(** Assignments to the fields of a [Greeks] value. *)
Definition set_delta (g : Greeks) (v : double) : Greeks :=
  mkGreeks v (gamma g) (vega g) (theta g).
Definition set_gamma (g : Greeks) (v : double) : Greeks :=
  mkGreeks (delta g) v (vega g) (theta g).
Definition set_vega (g : Greeks) (v : double) : Greeks :=
  mkGreeks (delta g) (gamma g) v (theta g).
Definition set_theta (g : Greeks) (v : double) : Greeks :=
  mkGreeks (delta g) (gamma g) (vega g) v.

(** ** black_scholes.cpp *)

Section Kernel.
Local Open Scope double_scope.

(** [norm_cdf]: N(x) = erfc(-x/sqrt 2) / 2. *)
Definition norm_cdf (x : double) : double :=
  std.erfc (- x / std.sqrt 2.0) / 2.0.

(** [INV_SQRT_2PI], the literal of the source. *)
Definition INV_SQRT_2PI : double := 0.3989422804014327.

(** [norm_pdf]. *)
Definition norm_pdf (x : double) : double :=
  INV_SQRT_2PI * std.exp (-0.5 * x * x).

(** [d1]. *)
Definition d1 (S K r sigma T : double) : double :=
  (std.log (S / K) + (r + 0.5 * sigma * sigma) * T) / (sigma * std.sqrt T).

(** [d2]. *)
Definition d2 (d1_val sigma T : double) : double :=
  d1_val - sigma * std.sqrt T.

(** [price_option]. *)
Definition price_option (S K r sigma T : double) (type : OptionType) : double :=
  let d1v := d1 S K r sigma T in
  let d2v := d2 d1v sigma T in
  let disc := std.exp (- r * T) in
  match type with
  | CALL => S * norm_cdf d1v - K * disc * norm_cdf d2v
  | PUT => K * disc * norm_cdf (- d2v) - S * norm_cdf (- d1v)
  end.

(** [compute_greeks]: [Greeks g{}] is zero-initialised, then its four
    fields are assigned in turn. *)
Definition compute_greeks (S K r sigma T : double) (type : OptionType) : Greeks :=
  let d1v := d1 S K r sigma T in
  let d2v := d2 d1v sigma T in
  let sqrtT := std.sqrt T in
  let disc := std.exp (- r * T) in
  let npd1 := norm_pdf d1v in
  let g := mkGreeks 0 0 0 0 in
  let g := match type with
           | CALL => set_delta g (norm_cdf d1v)
           | PUT => set_delta g (norm_cdf d1v - 1.0)
           end in
  let g := set_gamma g (npd1 / (S * sigma * sqrtT)) in
  let g := set_vega g (S * npd1 * sqrtT / 100.0) in
  let common_term := - (S * npd1 * sigma) / (2.0 * sqrtT) in
  let g := match type with
           | CALL => set_theta g ((common_term - r * K * disc * norm_cdf d2v) / 365.0)
           | PUT => set_theta g ((common_term + r * K * disc * norm_cdf (- d2v)) / 365.0)
           end in
  g.

End Kernel.

(** ** batch_pricer.hpp *)

(** [struct Contract]. *)
Module Contract.
Record t : Type := make {
  S : double;
  K : double;
  r : double;
  sigma : double;
  T : double;
  option_type : OptionType
}.
End Contract.
Definition Contract : Type := Contract.t.

(** The kernel call of the loop body:
    [price_option(c.S, c.K, c.r, c.sigma, c.T, c.option_type)]. *)
Definition price_contract (c : Contract) : double :=
  price_option (Contract.S c) (Contract.K c) (Contract.r c)
    (Contract.sigma c) (Contract.T c) (Contract.option_type c).

(** The two vectors that [price_batch] works on: the argument
    [contracts], passed by reference, and the local [prices]. *)
Record batch_state : Type := mkState {
  contracts : list Contract;
  prices : list double
}.

(** [prices.push_back(v)]. *)
Definition push_back (st : batch_state) (v : double) : batch_state :=
  mkState (contracts st) (prices st ++ [v]).

(** [for (const auto& c : contracts) { ... }]: [n] iterations are left and
    [i] is the position of the iterator; the element is read from the
    vector of the current state. *)
Fixpoint range_for (n i : nat) (st : batch_state) : batch_state :=
  match n with
  | O => st
  | Datatypes.S n' =>
      match nth_error (contracts st) i with
      | Some c => range_for n' (i + 1) (push_back st (price_contract c))
      | None => st
      end
  end.

(** The state in which [price_batch] returns.  [prices.reserve] changes
    the capacity of [prices] only, which the model does not record. *)
Definition price_batch_run (cs : list Contract) : batch_state :=
  range_for (length cs) 0 (mkState cs []).

(** [price_batch]. *)
Definition price_batch (cs : list Contract) : list double :=
  prices (price_batch_run cs).

(** ** The formulas of the specification

    The closed forms as the specification writes them, on the reals; the
    kernel is compared with them in Part II. *)

(** N, the standard normal distribution function, through erfc. *)
Definition spec_N (x : R) : R := erfc (- x / sqrt 2) / 2.

(** N', the density, with the source's literal for 1/sqrt(2 pi). *)
Definition spec_N' (x : R) : R := 0.3989422804014327 * exp (- (x * x) / 2).

Definition spec_d1 (S K r sigma T : R) : R :=
  (ln (S / K) + (r + sigma ^ 2 / 2) * T) / (sigma * sqrt T).

Definition spec_d2 (S K r sigma T : R) : R :=
  spec_d1 S K r sigma T - sigma * sqrt T.

Definition spec_price (S K r sigma T : R) (type : OptionType) : R :=
  let d1 := spec_d1 S K r sigma T in
  let d2 := spec_d2 S K r sigma T in
  match type with
  | CALL => S * spec_N d1 - K * exp (- (r * T)) * spec_N d2
  | PUT => K * exp (- (r * T)) * spec_N (- d2) - S * spec_N (- d1)
  end.

Definition spec_delta (S K r sigma T : R) (type : OptionType) : R :=
  match type with
  | CALL => spec_N (spec_d1 S K r sigma T)
  | PUT => spec_N (spec_d1 S K r sigma T) - 1
  end.

Definition spec_gamma (S K r sigma T : R) : R :=
  spec_N' (spec_d1 S K r sigma T) / (S * sigma * sqrt T).

Definition spec_vega (S K r sigma T : R) : R :=
  S * spec_N' (spec_d1 S K r sigma T) * sqrt T / 100.

Definition spec_theta (S K r sigma T : R) (type : OptionType) : R :=
  let d1 := spec_d1 S K r sigma T in
  let d2 := spec_d2 S K r sigma T in
  let shared := - (S * spec_N' d1 * sigma) / (2 * sqrt T) in
  match type with
  | CALL => (shared - r * K * exp (- (r * T)) * spec_N d2) / 365
  | PUT => (shared + r * K * exp (- (r * T)) * spec_N (- d2)) / 365
  end.

(** The precondition of the kernel. *)
Definition valid_input (S K sigma T : R) : Prop :=
  0 < S /\ 0 < K /\ 0 < sigma /\ 0 < T.

(** The inputs on which every operation of [d1] has a real result. *)
Definition in_domain (S K sigma T : R) : Prop :=
  K <> 0 /\ 0 < S / K /\ sigma <> 0 /\ 0 < T.

(** ** Further definitions

    The standard normal density, valid contracts, the capacity of the
    vector of prices ([std::vector], after the C++ standard), and the
    contracts of benchmarks/bench.cpp. *)

(** The standard normal density. *)
Definition normal_density (x : R) : R := / sqrt (2 * PI) * exp (- (x * x) / 2).

(** A contract whose five numbers are finite and satisfy the precondition. *)
Definition contract_valid (c : Contract) : Prop :=
  exists S K r sigma T : R,
    Contract.S c = Finite S /\ Contract.K c = Finite K /\ Contract.r c = Finite r /\
    Contract.sigma c = Finite sigma /\ Contract.T c = Finite T /\
    valid_input S K sigma T.

(** A [std::vector<double>] with its capacity.  [reallocations] counts how
    often its storage has been reallocated. *)
Record vector : Type := mkVector {
  elements : list double;
  capacity : nat;
  reallocations : nat
}.

(** [std::vector<double> prices;] *)
Definition empty_vector : vector := mkVector [] 0 0.

(** [v.reserve(n)]: new storage of capacity [n] when [n] exceeds the
    capacity, nothing otherwise. *)
Definition reserve (n : nat) (v : vector) : vector :=
  if Nat.ltb (capacity v) n
  then mkVector (elements v) n (S (reallocations v))
  else v.

(** [v.push_back(x)]: in place while the size is below the capacity,
    otherwise into new storage whose capacity [grow] chooses. *)
Definition vector_push_back (grow : nat -> nat) (v : vector) (x : double) : vector :=
  if Nat.ltb (length (elements v)) (capacity v)
  then mkVector (elements v ++ [x]) (capacity v) (reallocations v)
  else mkVector (elements v ++ [x]) (grow (capacity v)) (S (reallocations v)).

(** The loop of [price_batch] on a vector with capacity. *)
Fixpoint range_for_vector (grow : nat -> nat) (n i : nat) (cs : list Contract)
  (v : vector) : vector :=
  match n with
  | O => v
  | S n' =>
      match nth_error cs i with
      | Some c => range_for_vector grow n' (i + 1) cs (vector_push_back grow v (price_contract c))
      | None => v
      end
  end.

(** [price_batch] with the capacity of [prices] recorded. *)
Definition price_batch_vector (grow : nat -> nat) (cs : list Contract) : vector :=
  range_for_vector grow (length cs) 0 cs (reserve (length cs) empty_vector).

(** benchmarks/bench.cpp: the contract of iteration [i], built from the
    four numbers drawn for it. *)
Definition bench_contract (i : nat) (spot strike vol expiry : R) : Contract :=
  Contract.make spot strike 0.05 vol expiry (if Nat.even i then CALL else PUT).

(** The vector of contracts after [n] iterations; [draw i] is what the four
    distributions return in iteration [i]. *)
Definition bench_contracts (n : nat) (draw : nat -> R * R * R * R) : list Contract :=
  map (fun i => let '(spot, strike, vol, expiry) := draw i in
                bench_contract i spot strike vol expiry) (seq 0 n).

(** What [uniform_real_distribution] can return in the benchmark. *)
Definition bench_draw_in_range (d : R * R * R * R) : Prop :=
  let '(spot, strike, vol, expiry) := d in
  80 <= spot < 120 /\ 70 <= strike < 130 /\ 0.10 <= vol < 0.50 /\ 0.10 <= expiry < 2.00.

(* ================================================================== *)
(** * Part II: properties *)
(* ================================================================== *)

(** ** Real analysis: the Gaussian integral *)

(** A function whose derivative is non-negative on [[a, b]] does not decrease there. *)
Lemma derivative_nonneg_incr (h h' : R -> R) (a b : R) :
  a <= b ->
  (forall c, a <= c <= b -> derivable_pt_lim h c (h' c)) ->
  (forall c, a <= c <= b -> 0 <= h' c) ->
  h a <= h b.
Proof.
  intros [Hlt | ->] Hd Hpos; [| lra].
  destruct (MVT_cor2 h h' a b Hlt Hd) as (c & Hc & Hin).
  assert (0 <= h' c * (b - a)) by (apply Rmult_le_pos; [apply Hpos |]; lra).
  lra.
Qed.

(** Two functions that agree around [x] have the same derivative at [x]. *)
Lemma derivable_pt_lim_locally (f g : R -> R) (x l d : R) :
  0 < d ->
  (forall y, Rabs (y - x) < d -> f y = g y) ->
  derivable_pt_lim g x l -> derivable_pt_lim f x l.
Proof.
  intros Hd Hfg Hg eps Heps.
  destruct (Hg eps Heps) as [dg Hdg].
  assert (Hm : 0 < Rmin dg d) by (apply Rmin_pos; [apply cond_pos | exact Hd]).
  exists (mkposreal _ Hm). intros h Hh0 Hh. simpl in Hh.
  rewrite (Hfg (x + h)), (Hfg x).
  - apply Hdg; [exact Hh0 |].
    apply Rlt_le_trans with (1 := Hh). apply Rmin_l.
  - replace (x - x) with 0 by ring. rewrite Rabs_R0. exact Hd.
  - replace (x + h - x) with h by ring.
    apply Rlt_le_trans with (1 := Hh). apply Rmin_r.
Qed.

Lemma gauss_int_0 : gauss_int 0 = 0.
Proof. unfold gauss_int. apply RiemannInt_P9. Qed.

(** The fundamental theorem of calculus for [gauss_int]. *)
Lemma gauss_int_derivable (x : R) : derivable_pt_lim gauss_int x (gauss x).
Proof.
  assert (Hab : x - 1 <= x + 1) by lra.
  assert (C0 : forall y, x - 1 <= y <= x + 1 -> continuity_pt gauss y)
    by (intros; apply gauss_continuous).
  pose proof (RiemannInt_P28 Hab C0 (x := x)) as HP.
  apply (derivable_pt_lim_locally gauss_int
           (fun y => gauss_int (x - 1) + primitive Hab (FTC_P1 Hab C0) y) x (gauss x) 1).
  - lra.
  - intros y Hy. apply Rabs_def2 in Hy.
    unfold primitive.
    destruct (Rle_dec (x - 1) y) as [H1 | H1]; [| lra].
    destruct (Rle_dec y (x + 1)) as [H2 | H2]; [| lra].
    unfold gauss_int. symmetry. apply RiemannInt_P26.
  - replace (gauss x) with (0 + gauss x) by ring.
    apply (derivable_pt_lim_plus (fun _ => gauss_int (x - 1))).
    + apply derivable_pt_lim_const.
    + apply HP. lra.
Qed.

Lemma gauss_even (t : R) : gauss (- t) = gauss t.
Proof. unfold gauss. f_equal. ring. Qed.

Lemma gauss_pos (t : R) : 0 < gauss t.
Proof. apply exp_pos. Qed.

(** The integral of an even function is odd. *)
Lemma gauss_int_odd (x : R) : gauss_int (- x) = - gauss_int x.
Proof.
  assert (Hd : forall c, derivable_pt_lim (fun y => gauss_int y + gauss_int (- y)) c 0).
  { intros c. replace 0 with (gauss c + gauss (- c) * (-1)) by (rewrite gauss_even; ring).
    apply (derivable_pt_lim_plus gauss_int (fun y => gauss_int (- y))).
    - apply gauss_int_derivable.
    - apply (derivable_pt_lim_comp Ropp gauss_int).
      + apply derivable_pt_lim_opp with (f := id). apply derivable_pt_lim_id.
      + apply gauss_int_derivable. }
  assert (Hc : forall y, 0 <= y -> gauss_int y + gauss_int (- y) = 0).
  { intros y Hy.
    assert (L1 := derivative_nonneg_incr (fun y => gauss_int y + gauss_int (- y))
                    (fun _ => 0) 0 y Hy (fun c _ => Hd c) (fun _ _ => Rle_refl 0)).
    assert (L2 : - (gauss_int 0 + gauss_int (- 0)) <= - (gauss_int y + gauss_int (- y))).
    { apply (derivative_nonneg_incr (fun y => - (gauss_int y + gauss_int (- y)))
               (fun _ => - 0) 0 y Hy).
      - intros c _. apply derivable_pt_lim_opp with (f := fun y => gauss_int y + gauss_int (- y)).
        apply Hd.
      - intros; lra. }
    simpl in L1. rewrite Ropp_0, gauss_int_0 in *. lra. }
  destruct (Rle_dec 0 x) as [Hx | Hx].
  - specialize (Hc x Hx). lra.
  - specialize (Hc (- x)). rewrite Ropp_involutive in Hc. lra.
Qed.

(** ** Integrals of the powers of the cosine *)

Lemma pair_induction (P : nat -> Prop) :
  P O -> P 1%nat -> (forall j, P j -> P (S (S j))) -> forall k, P k.
Proof.
  intros H0 H1 Hstep.
  assert (H : forall k, P k /\ P (S k)).
  { induction k as [| k [IH1 IH2]]; [split; assumption |].
    split; [exact IH2 | apply Hstep; exact IH1]. }
  intros k. apply H.
Qed.

Lemma cos_int_at_0 (k : nat) : cos_int k 0 = 0.
Proof.
  induction k as [| | j IH] using pair_induction.
  - reflexivity.
  - simpl. apply sin_0.
  - cbn [cos_int]. rewrite IH, sin_0. unfold Rdiv. ring.
Qed.

Lemma cos_pow_derivable (n : nat) (t : R) :
  derivable_pt_lim (fun u => cos u ^ n) t (INR n * cos t ^ pred n * - sin t).
Proof.
  apply (derivable_pt_lim_comp cos (fun y => y ^ n)).
  - apply derivable_pt_lim_cos.
  - apply derivable_pt_lim_pow.
Qed.

Lemma cos_int_derivable (k : nat) : forall t, derivable_pt_lim (cos_int k) t (cos t ^ k).
Proof.
  induction k as [| | j IH] using pair_induction; intros t.
  - simpl. apply (derivable_pt_lim_id t).
  - simpl. rewrite Rmult_1_r. apply derivable_pt_lim_sin.
  - assert (Hj : INR (S (S j)) <> 0) by (apply not_0_INR; discriminate).
    replace (cos t ^ S (S j))
      with (((INR (S j) * cos t ^ pred (S j) * - sin t) * sin t + cos t ^ S j * cos t
             + INR (S j) * cos t ^ j) * / INR (S (S j))).
    + apply (derivable_pt_lim_ext
               (fun u => (cos u ^ S j * sin u + INR (S j) * cos_int j u) * / INR (S (S j))));
        [intros z; reflexivity |].
      apply (derivable_pt_lim_scal_right
               (fun u => cos u ^ S j * sin u + INR (S j) * cos_int j u)).
      apply (derivable_pt_lim_plus (fun u => cos u ^ S j * sin u)
               (fun u => INR (S j) * cos_int j u)).
      * apply (derivable_pt_lim_mult (fun u => cos u ^ S j) sin).
        -- apply cos_pow_derivable.
        -- apply derivable_pt_lim_sin.
      * apply (derivable_pt_lim_scal (cos_int j)). apply IH.
    + cbn [pred]. rewrite !S_INR in *.
      assert (Hs : sin t * sin t = 1 - cos t * cos t).
      { pose proof (sin2_cos2 t) as H. unfold Rsqr in H. lra. }
      simpl pow.
      apply Rmult_eq_reg_r with (INR j + 1 + 1); [| exact Hj].
      rewrite Rmult_assoc, Rinv_l, Rmult_1_r by exact Hj.
      replace ((INR j + 1) * cos t ^ j * - sin t * sin t)
        with (- (INR j + 1) * cos t ^ j * (sin t * sin t)) by ring.
      rewrite Hs. ring.
Qed.

Lemma wallis_SS (j : nat) : wallis (S (S j)) = INR (S j) / INR (S (S j)) * wallis j.
Proof.
  unfold wallis. cbn [cos_int]. rewrite cos_PI2.
  rewrite pow_ne_zero by discriminate. unfold Rdiv. ring.
Qed.

Lemma wallis_pos (k : nat) : 0 < wallis k.
Proof.
  induction k as [| | j IH] using pair_induction.
  - unfold wallis. simpl. pose proof PI_RGT_0. lra.
  - unfold wallis. simpl. rewrite sin_PI2. lra.
  - rewrite wallis_SS. apply Rmult_lt_0_compat; [| exact IH].
    apply Rdiv_lt_0_compat; apply lt_0_INR; lia.
Qed.

(** Two consecutive Wallis integrals multiply to [PI / (2 (k + 1))]. *)
Lemma wallis_prod (k : nat) : wallis (S k) * wallis k = PI / (2 * INR (S k)).
Proof.
  induction k as [| k IH].
  - unfold wallis. simpl. rewrite sin_PI2. field.
  - rewrite wallis_SS.
    replace (INR (S k) / INR (S (S k)) * wallis k * wallis (S k))
      with (INR (S k) / INR (S (S k)) * (wallis (S k) * wallis k)) by ring.
    rewrite IH.
    assert (INR (S k) <> 0) by (apply not_0_INR; discriminate).
    assert (INR (S (S k)) <> 0) by (apply not_0_INR; discriminate).
    field. split; assumption.
Qed.

Lemma cos_int_incr (k : nat) (a b : R) :
  0 <= a -> a <= b -> b <= PI / 2 -> cos_int k a <= cos_int k b.
Proof.
  intros Ha Hab Hb.
  apply (derivative_nonneg_incr (cos_int k) (fun t => cos t ^ k) a b Hab).
  - intros c _. apply cos_int_derivable.
  - intros c Hc. apply pow_le. apply cos_ge_0; lra.
Qed.

(** The Wallis integrals decrease, since [cos ^ (k+1) <= cos ^ k] on [[0, PI/2]]. *)
Lemma wallis_decr (k : nat) : wallis (S k) <= wallis k.
Proof.
  pose proof PI_RGT_0 as Hpi.
  assert (H : cos_int k 0 - cos_int (S k) 0 <= cos_int k (PI / 2) - cos_int (S k) (PI / 2)).
  { apply (derivative_nonneg_incr (fun t => cos_int k t - cos_int (S k) t)
             (fun t => cos t ^ k - cos t ^ S k) 0 (PI / 2)); [lra | |].
    - intros c _. apply (derivable_pt_lim_minus (cos_int k) (cos_int (S k)));
        apply cos_int_derivable.
    - intros c Hc.
      assert (H0 : 0 <= cos c) by (apply cos_ge_0; lra).
      pose proof (COS_bound c) as [_ H1].
      pose proof (pow_le (cos c) k H0) as Hk.
      simpl. nra. }
  rewrite !cos_int_at_0 in H. unfold wallis. lra.
Qed.

Lemma wallis_sqr (k : nat) : wallis (S k) * wallis (S k) <= PI / (2 * INR (S k)).
Proof.
  rewrite <- wallis_prod.
  apply Rmult_le_compat_l; [left; apply wallis_pos | apply wallis_decr].
Qed.

(** ** The Gaussian integral is at most [sqrt PI / 2] *)

Lemma exp_INR_mult (n : nat) (y : R) : exp (INR n * y) = exp y ^ n.
Proof.
  induction n as [| n IH].
  - simpl. rewrite Rmult_0_l. apply exp_0.
  - rewrite S_INR. replace ((INR n + 1) * y) with (y + INR n * y) by ring.
    rewrite exp_plus, IH. reflexivity.
Qed.

Lemma exp_opp_le (y : R) : 0 <= y -> exp (- y) <= / (1 + y).
Proof.
  intros Hy. rewrite exp_Ropp.
  apply Rinv_le_contravar; [lra | apply exp_ineq1_le].
Qed.

(** [exp (- c^2) <= (1 + c^2/n) ^ (- n)]. *)
Lemma gauss_le_rational (n : nat) (c : R) :
  (0 < n)%nat -> gauss c <= (/ (1 + c * c / INR n)) ^ n.
Proof.
  intros Hn. unfold gauss.
  assert (Hn' : 0 < INR n) by (apply lt_0_INR; exact Hn).
  assert (Hq : 0 <= c * c / INR n).
  { apply Rmult_le_pos; [nra | left; apply Rinv_0_lt_compat; exact Hn']. }
  replace (- (c * c)) with (INR n * - (c * c / INR n)) by (field; lra).
  rewrite exp_INR_mult.
  apply pow_incr. split; [left; apply exp_pos | apply exp_opp_le; exact Hq].
Qed.

Lemma cos_atan_sqr (u : R) : cos (atan u) ^ 2 = / (1 + u * u).
Proof.
  rewrite cos_atan. unfold Rsqr.
  assert (H : 0 < 1 + u * u) by nra.
  pose proof (sqrt_lt_R0 _ H) as Hs.
  pose proof (sqrt_sqrt (1 + u * u) (Rlt_le _ _ H)) as Hq.
  simpl. rewrite <- Hq at 3. field. lra.
Qed.

(** The substitution [t = sqrt n * tan s] in the integral of [(1 + t^2/n) ^ (- n)]. *)
Lemma cos_int_atan_derivable (m : nat) (c : R) :
  derivable_pt_lim
    (fun x => sqrt (INR (S m)) * cos_int (2 * m) (atan (x * / sqrt (INR (S m)))))
    c ((/ (1 + c * c / INR (S m))) ^ S m).
Proof.
  set (n := INR (S m)).
  assert (Hn : 0 < n) by (apply lt_0_INR; lia).
  pose proof (sqrt_lt_R0 _ Hn) as Hs.
  pose proof (sqrt_sqrt n (Rlt_le _ _ Hn)) as Hq.
  set (u := c * / sqrt n).
  replace ((/ (1 + c * c / n)) ^ S m)
    with (sqrt n * (cos (atan u) ^ (2 * m) * (/ (1 + u ^ 2) * (1 * / sqrt n)))).
  - apply (derivable_pt_lim_scal (fun x => cos_int (2 * m) (atan (x * / sqrt n)))).
    apply (derivable_pt_lim_comp (fun x => atan (x * / sqrt n)) (cos_int (2 * m))).
    + apply (derivable_pt_lim_comp (fun x => x * / sqrt n) atan).
      * apply (derivable_pt_lim_scal_right id). apply derivable_pt_lim_id.
      * apply derivable_pt_lim_atan.
    + apply cos_int_derivable.
  - rewrite pow_mult, cos_atan_sqr.
    assert (Hu : u * u = c * c / n).
    { unfold u. rewrite <- Hq at 3. field. lra. }
    replace (u ^ 2) with (u * u) by ring. rewrite Hu.
    simpl pow. field. repeat split; nra.
Qed.

Lemma gauss_int_nonneg (x : R) : 0 <= x -> 0 <= gauss_int x.
Proof.
  intros Hx. rewrite <- gauss_int_0.
  apply (derivative_nonneg_incr gauss_int gauss 0 x Hx).
  - intros c _. apply gauss_int_derivable.
  - intros c _. left. apply gauss_pos.
Qed.

Lemma gauss_int_le_wallis (m : nat) (x : R) :
  0 <= x -> gauss_int x <= sqrt (INR (S m)) * wallis (2 * m).
Proof.
  intros Hx.
  set (n := INR (S m)).
  assert (Hn : 0 < n) by (apply lt_0_INR; lia).
  pose proof (sqrt_lt_R0 _ Hn) as Hs.
  set (H := fun y => sqrt n * cos_int (2 * m) (atan (y * / sqrt n))).
  assert (Hcmp : H 0 - gauss_int 0 <= H x - gauss_int x).
  { apply (derivative_nonneg_incr (fun y => H y - gauss_int y)
             (fun c => (/ (1 + c * c / n)) ^ S m - gauss c) 0 x Hx).
    - intros c _. apply (derivable_pt_lim_minus H gauss_int).
      + apply cos_int_atan_derivable.
      + apply gauss_int_derivable.
    - intros c _. pose proof (gauss_le_rational (S m) c ltac:(lia)). fold n in H0. lra. }
  unfold H in Hcmp at 1. rewrite Rmult_0_l, atan_0, cos_int_at_0, gauss_int_0 in Hcmp.
  assert (Hw : cos_int (2 * m) (atan (x * / sqrt n)) <= wallis (2 * m)).
  { unfold wallis. pose proof (atan_bound (x * / sqrt n)) as [_ Hb].
    apply cos_int_incr; [| lra | lra].
    rewrite <- atan_0. destruct (Req_dec x 0) as [-> | Hx0].
    - rewrite Rmult_0_l. lra.
    - left. apply atan_increasing. apply Rmult_lt_0_compat; [lra | apply Rinv_0_lt_compat; lra]. }
  unfold H in Hcmp.
  assert (sqrt n * cos_int (2 * m) (atan (x * / sqrt n)) <= sqrt n * wallis (2 * m))
    by (apply Rmult_le_compat_l; lra).
  lra.
Qed.

(** The Gaussian integral over [[0, x]] stays below [sqrt PI / 2]. *)
Lemma gauss_int_sqr_bound (x : R) : 0 <= x -> gauss_int x * gauss_int x <= PI / 4.
Proof.
  intros Hx.
  pose proof (gauss_int_nonneg x Hx) as Hg.
  pose proof PI_RGT_0 as Hpi.
  assert (Hm : forall p : nat,
             gauss_int x * gauss_int x <= PI / 4 + PI / 4 * / INR (S p)).
  { intros p. set (m := S p).
    pose proof (gauss_int_le_wallis m x Hx) as Hle.
    assert (Hn : 0 < INR (S m)) by (apply lt_0_INR; lia).
    assert (Hm0 : 0 < INR m) by (apply lt_0_INR; lia).
    pose proof (sqrt_sqrt _ (Rlt_le _ _ Hn)) as Hq.
    pose proof (sqrt_lt_R0 _ Hn) as Hs.
    pose proof (wallis_pos (2 * m)) as Hw.
    pose proof (wallis_sqr (S (2 * p))) as Hsq.
    replace (S (S (2 * p))) with (2 * m)%nat in Hsq by (unfold m; lia).
    rewrite mult_INR in Hsq. change (INR 2) with 2 in Hsq.
    assert (H1 : gauss_int x * gauss_int x
                 <= (sqrt (INR (S m)) * wallis (2 * m)) * (sqrt (INR (S m)) * wallis (2 * m)))
      by (apply Rmult_le_compat; lra).
    replace ((sqrt (INR (S m)) * wallis (2 * m)) * (sqrt (INR (S m)) * wallis (2 * m)))
      with (INR (S m) * (wallis (2 * m) * wallis (2 * m))) in H1
      by (rewrite <- Hq at 1; ring).
    assert (H2 : INR (S m) * (wallis (2 * m) * wallis (2 * m))
                 <= INR (S m) * (PI / (2 * (2 * INR m))))
      by (apply Rmult_le_compat_l; lra).
    replace (INR (S m) * (PI / (2 * (2 * INR m))))
      with (PI / 4 + PI / 4 * / INR m) in H2 by (rewrite S_INR; field; lra).
    lra. }
  destruct (Rle_dec (gauss_int x * gauss_int x) (PI / 4)) as [Hok | Hno]; [exact Hok |].
  exfalso.
  set (d := gauss_int x * gauss_int x - PI / 4).
  assert (Hd : 0 < d / (PI / 4)).
  { apply Rdiv_lt_0_compat; unfold d; lra. }
  destruct (archimed_cor1 _ Hd) as (N & HN & HN0).
  destruct N as [| p]; [lia |].
  specialize (Hm p).
  assert (PI / 4 * / INR (S p) < d).
  { replace d with (PI / 4 * (d / (PI / 4))) by (field; lra).
    apply Rmult_lt_compat_l; lra. }
  unfold d in *. lra.
Qed.

(** ** The error function *)

Lemma sqrt_PI_pos : 0 < sqrt PI.
Proof. apply sqrt_lt_R0. apply PI_RGT_0. Qed.

Lemma erf_0 : erf 0 = 0.
Proof. unfold erf. rewrite gauss_int_0. ring. Qed.

Lemma erf_odd (x : R) : erf (- x) = - erf x.
Proof. unfold erf. rewrite gauss_int_odd. ring. Qed.

Lemma erf_nonneg (x : R) : 0 <= x -> 0 <= erf x.
Proof.
  intros Hx. unfold erf. apply Rmult_le_pos; [| apply gauss_int_nonneg; exact Hx].
  left. apply Rdiv_lt_0_compat; [lra | apply sqrt_PI_pos].
Qed.

Lemma erf_le_1 (x : R) : 0 <= x -> erf x <= 1.
Proof.
  intros Hx.
  pose proof sqrt_PI_pos as Hs.
  pose proof (sqrt_sqrt PI (Rlt_le _ _ PI_RGT_0)) as Hq.
  pose proof (gauss_int_nonneg x Hx) as Hg.
  pose proof (gauss_int_sqr_bound x Hx) as Hb.
  assert (Hle : gauss_int x <= sqrt PI / 2).
  { apply Rsqr_incr_0; [| exact Hg | lra].
    unfold Rsqr. replace (sqrt PI / 2 * (sqrt PI / 2)) with (sqrt PI * sqrt PI / 4) by field.
    rewrite Hq. exact Hb. }
  unfold erf. apply Rmult_le_reg_l with (sqrt PI / 2); [lra |].
  replace (sqrt PI / 2 * (2 / sqrt PI * gauss_int x)) with (gauss_int x) by (field; lra).
  lra.
Qed.

Lemma erf_range (x : R) : -1 <= erf x <= 1.
Proof.
  destruct (Rle_dec 0 x) as [Hx | Hx].
  - pose proof (erf_nonneg x Hx). pose proof (erf_le_1 x Hx). lra.
  - assert (Hx' : 0 <= - x) by lra.
    pose proof (erf_nonneg _ Hx'). pose proof (erf_le_1 _ Hx').
    rewrite erf_odd in *. lra.
Qed.

Lemma erfc_reflect (x : R) : erfc (- x) = 2 - erfc x.
Proof. unfold erfc. rewrite erf_odd. ring. Qed.

Lemma erfc_range (x : R) : 0 <= erfc x <= 2.
Proof. unfold erfc. pose proof (erf_range x). lra. Qed.

Lemma erfc_0 : erfc 0 = 1.
Proof. unfold erfc. rewrite erf_0. ring. Qed.

Lemma erfc_derivable (x : R) :
  derivable_pt_lim erfc x (- (2 / sqrt PI * exp (- (x * x)))).
Proof.
  unfold erfc.
  replace (- (2 / sqrt PI * exp (- (x * x)))) with (0 - 2 / sqrt PI * gauss x) by (unfold gauss; ring).
  apply (derivable_pt_lim_minus (fun _ => 1) erf).
  - apply derivable_pt_lim_const.
  - unfold erf. apply (derivable_pt_lim_scal gauss_int). apply gauss_int_derivable.
Qed.

(** ** The literal for 1 / sqrt (2 pi) *)

Lemma PI_16_digits : 3.1415926535897932 < PI < 3.1415926535897933.
Proof.
  pose proof (PI_2_3_7_ineq 8) as [Hlo Hhi].
  unfold sum_f_R0, tg_alt, PI_2_3_7_tg, Ratan_seq in Hlo, Hhi.
  simpl in Hlo, Hhi.
  split; lra.
Qed.

(** The literal of [INV_SQRT_2PI] is 1 / sqrt (2 pi) to sixteen places. *)
Lemma INV_SQRT_2PI_accurate :
  Rabs (0.3989422804014327 - / sqrt (2 * PI)) < 1 / 10 ^ 16.
Proof.
  pose proof PI_16_digits as [Hlo Hhi].
  assert (H2pi : 0 < 2 * PI) by lra.
  pose proof (sqrt_lt_R0 _ H2pi) as Hs.
  pose proof (sqrt_sqrt (2 * PI) (Rlt_le _ _ H2pi)) as Hq.
  set (s := sqrt (2 * PI)) in *.
  assert (L : / 0.3989422804014328 < s).
  { apply Rsqr_incrst_0; [| | lra].
    - unfold Rsqr. rewrite Hq. lra.
    - left. apply Rinv_0_lt_compat. lra. }
  assert (U : s < / 0.3989422804014326).
  { apply Rsqr_incrst_0; [| lra |].
    - unfold Rsqr. rewrite Hq. lra.
    - left. apply Rinv_0_lt_compat. lra. }
  assert (L' : / s < 0.3989422804014328).
  { rewrite <- (Rinv_inv 0.3989422804014328). apply Rinv_lt_contravar; [| exact L].
    apply Rmult_lt_0_compat; [apply Rinv_0_lt_compat; lra | lra]. }
  assert (U' : 0.3989422804014326 < / s).
  { rewrite <- (Rinv_inv 0.3989422804014326). apply Rinv_lt_contravar; [| exact U].
    apply Rmult_lt_0_compat; [lra | apply Rinv_0_lt_compat; lra]. }
  apply Rabs_def1; simpl; lra.
Qed.

(** ** The domain of the closed form *)

Lemma sqrt2_neq_0 : sqrt 2 <> 0.
Proof.
  assert (H : 0 < sqrt 2) by (apply sqrt_lt_R0; lra). lra.
Qed.

Lemma sigma_sqrtT_pos (sigma T : R) : 0 < sigma -> 0 < T -> 0 < sigma * sqrt T.
Proof.
  intros Hs HT. apply Rmult_lt_0_compat; [exact Hs | apply sqrt_lt_R0; exact HT].
Qed.

Lemma valid_in_domain (S K sigma T : R) :
  valid_input S K sigma T -> in_domain S K sigma T.
Proof.
  intros (HS & HK & Hs & HT). unfold in_domain.
  repeat split; try lra. apply Rdiv_lt_0_compat; assumption.
Qed.

Lemma in_domain_divisor (S K sigma T : R) :
  in_domain S K sigma T -> sigma * sqrt T <> 0.
Proof.
  intros (_ & _ & Hs & HT).
  apply Rmult_integral_contrapositive_currified; [exact Hs |].
  apply Rgt_not_eq. apply sqrt_lt_R0. exact HT.
Qed.

(** ** The normal distribution function and density *)

Lemma spec_N_reflect (x : R) : spec_N (- x) = 1 - spec_N x.
Proof.
  unfold spec_N.
  replace (- - x / sqrt 2) with (- (- x / sqrt 2)) by (field; apply sqrt2_neq_0).
  rewrite erfc_reflect. lra.
Qed.

Lemma spec_N_range (x : R) : 0 <= spec_N x <= 1.
Proof.
  unfold spec_N. pose proof (erfc_range (- x / sqrt 2)). lra.
Qed.

Lemma spec_N_at_0 : spec_N 0 = 1 / 2.
Proof.
  unfold spec_N. replace (- 0 / sqrt 2) with 0 by (field; apply sqrt2_neq_0).
  rewrite erfc_0. reflexivity.
Qed.

(** [spec_N] is a primitive of the standard normal density. *)
Lemma spec_N_density (x : R) :
  derivable_pt_lim spec_N x (/ sqrt (2 * PI) * exp (- (x * x) / 2)).
Proof.
  pose proof sqrt_PI_pos as HP.
  assert (H2 : 0 < sqrt 2) by (apply sqrt_lt_R0; lra).
  pose proof (sqrt_sqrt 2 ltac:(lra)) as Hq.
  set (u := - x / sqrt 2).
  replace (/ sqrt (2 * PI) * exp (- (x * x) / 2))
    with (- (2 / sqrt PI * exp (- (u * u))) * (- 1 * / sqrt 2) * / 2).
  - apply (derivable_pt_lim_ext (fun y => erfc (- y * / sqrt 2) * / 2));
      [intros z; reflexivity |].
    apply (derivable_pt_lim_scal_right (fun y => erfc (- y * / sqrt 2))).
    apply (derivable_pt_lim_comp (fun y => - y * / sqrt 2) erfc).
    + apply (derivable_pt_lim_scal_right Ropp).
      apply derivable_pt_lim_opp with (f := id). apply derivable_pt_lim_id.
    + apply erfc_derivable.
  - rewrite sqrt_mult by (pose proof PI_RGT_0; lra).
    replace (u * u) with (x * x / (sqrt 2 * sqrt 2)) by (unfold u; field; lra).
    rewrite Hq.
    replace (- (x * x) / 2) with (- (x * x / 2)) by field.
    field. split; lra.
Qed.

Lemma spec_N'_pos (x : R) : 0 < spec_N' x.
Proof.
  unfold spec_N'. apply Rmult_lt_0_compat; [lra | apply exp_pos].
Qed.

(** [spec_N'] is the standard normal density, up to the rounding of the
    literal. *)
Lemma spec_N'_accurate (x : R) :
  Rabs (spec_N' x - / sqrt (2 * PI) * exp (- (x * x) / 2)) < 1 / 10 ^ 16.
Proof.
  unfold spec_N'. rewrite <- Rmult_minus_distr_r, Rabs_mult.
  assert (He : 0 < exp (- (x * x) / 2) <= 1).
  { split; [apply exp_pos |]. rewrite <- exp_0.
    destruct (Req_dec x 0) as [-> | Hx].
    - right. f_equal. field.
    - left. apply exp_increasing. nra. }
  rewrite (Rabs_pos_eq (exp _)) by lra.
  pose proof INV_SQRT_2PI_accurate as Ha.
  pose proof (Rabs_pos (0.3989422804014327 - / sqrt (2 * PI))) as Hp.
  apply Rle_lt_trans with (2 := Ha).
  rewrite <- (Rmult_1_r (Rabs _)) at 2.
  apply Rmult_le_compat_l; [exact Hp | lra].
Qed.

(** ** The loop of the batch evaluator *)

Lemma skipn_nth_error {A : Type} (l : list A) (i : nat) (a : A) :
  nth_error l i = Some a -> skipn i l = a :: skipn (S i) l.
Proof.
  revert i. induction l as [| b l IH]; intros [| i] H; simpl in *; try discriminate.
  - injection H as ->. reflexivity.
  - apply IH. exact H.
Qed.

(** What [n] iterations from position [i] do to a state. *)
Lemma range_for_spec (n : nat) :
  forall (i : nat) (st : batch_state),
    (i + n <= length (contracts st))%nat ->
    range_for n i st =
    mkState (contracts st)
      (prices st ++ map price_contract (firstn n (skipn i (contracts st)))).
Proof.
  induction n as [| n IH]; intros i st Hlen.
  - simpl. rewrite app_nil_r. destruct st; reflexivity.
  - cbn [range_for].
    destruct (nth_error (contracts st) i) as [c |] eqn:Hc.
    + rewrite IH by (simpl; lia). simpl contracts. simpl prices.
      rewrite (skipn_nth_error _ _ _ Hc). cbn [firstn map].
      rewrite <- app_assoc. replace (i + 1)%nat with (S i) by lia. reflexivity.
    + apply nth_error_None in Hc. lia.
Qed.

Lemma range_for_frame (n : nat) :
  forall (i : nat) (st : batch_state), contracts (range_for n i st) = contracts st.
Proof.
  induction n as [| n IH]; intros i st; [reflexivity |].
  cbn [range_for]. destruct (nth_error (contracts st) i) as [c |]; [| reflexivity].
  rewrite IH. reflexivity.
Qed.

Lemma price_batch_run_spec (cs : list Contract) :
  price_batch_run cs = mkState cs (map price_contract cs).
Proof.
  unfold price_batch_run. rewrite range_for_spec by (simpl; lia).
  simpl. rewrite firstn_all. reflexivity.
Qed.

(** The loop on a batch of two contracts. *)
Example price_batch_two (c1 c2 : Contract) :
  price_batch [c1; c2] = [price_contract c1; price_contract c2].
Proof. reflexivity. Qed.

Example price_batch_run_two (c1 c2 : Contract) :
  price_batch_run [c1; c2] = mkState [c1; c2] [price_contract c1; price_contract c2].
Proof. reflexivity. Qed.

(** ** Further lemmas: tails, Mills ratio and derivatives of the closed form *)

(** ** The Gaussian integral reaches [sqrt PI / 2] *)

Lemma exp_opp_ge (y : R) : 1 - y <= exp (- y).
Proof. pose proof (exp_ineq1_le (- y)). lra. Qed.

Lemma gauss_int_ge_wallis (n : nat) :
  sqrt (INR n) * wallis (2 * n + 1) <= gauss_int (sqrt (INR n)).
Proof.
  pose proof (pos_INR n) as Hn.
  pose proof (sqrt_pos (INR n)) as Hs.
  pose proof (sqrt_sqrt _ Hn) as Hq.
  pose proof PI_RGT_0 as Hpi.
  set (G := fun t => gauss_int (sqrt (INR n) * sin t) - sqrt (INR n) * cos_int (2 * n + 1) t).
  assert (H : G 0 <= G (PI / 2)).
  { apply (derivative_nonneg_incr G
             (fun t => gauss (sqrt (INR n) * sin t) * (sqrt (INR n) * cos t)
                       - sqrt (INR n) * cos t ^ (2 * n + 1)) 0 (PI / 2)); [lra | |].
    - intros c _. unfold G.
      apply (derivable_pt_lim_minus (fun t => gauss_int (sqrt (INR n) * sin t))
               (fun t => sqrt (INR n) * cos_int (2 * n + 1) t)).
      + apply (derivable_pt_lim_comp (fun t => sqrt (INR n) * sin t) gauss_int).
        * apply (derivable_pt_lim_scal sin). apply derivable_pt_lim_sin.
        * apply gauss_int_derivable.
      + apply (derivable_pt_lim_scal (cos_int (2 * n + 1))). apply cos_int_derivable.
    - intros c Hc.
      assert (Hcos : 0 <= cos c) by (apply cos_ge_0; lra).
      assert (Hsin2 : sin c * sin c = 1 - cos c * cos c).
      { pose proof (sin2_cos2 c) as H. unfold Rsqr in H. lra. }
      assert (Hpow : (cos c * cos c) ^ n <= gauss (sqrt (INR n) * sin c)).
      { unfold gauss.
        replace (- (sqrt (INR n) * sin c * (sqrt (INR n) * sin c)))
          with (INR n * - (sin c * sin c))
          by (rewrite <- Hq at 1; ring).
        rewrite exp_INR_mult. apply pow_incr. split; [nra |].
        rewrite Hsin2. pose proof (exp_opp_ge (1 - cos c * cos c)). lra. }
      replace (cos c ^ (2 * n + 1)) with ((cos c * cos c) ^ n * cos c).
      + assert (0 <= (gauss (sqrt (INR n) * sin c) - (cos c * cos c) ^ n)
                     * (sqrt (INR n) * cos c)).
        { apply Rmult_le_pos; [lra | apply Rmult_le_pos; assumption]. }
        lra.
      + rewrite pow_add, pow_mult, pow_1.
        replace (cos c ^ 2) with (cos c * cos c) by ring. reflexivity. }
  unfold G in H. rewrite sin_0, Rmult_0_r, gauss_int_0, cos_int_at_0, sin_PI2, Rmult_1_r in H.
  fold (wallis (2 * n + 1)) in H. lra.
Qed.

Lemma wallis_sqr_lower (k : nat) : PI / (2 * INR (S (S k))) <= wallis (S k) * wallis (S k).
Proof.
  rewrite <- (wallis_prod (S k)).
  apply Rmult_le_compat_r; [left; apply wallis_pos | apply wallis_decr].
Qed.

Lemma gauss_int_sqr_lower (n : nat) :
  PI / 4 * (1 - / INR (S n)) <= gauss_int (sqrt (INR n)) * gauss_int (sqrt (INR n)).
Proof.
  pose proof (pos_INR n) as Hn.
  pose proof (sqrt_pos (INR n)) as Hs.
  pose proof (sqrt_sqrt _ Hn) as Hq.
  pose proof (gauss_int_ge_wallis n) as Hle.
  pose proof (wallis_pos (2 * n + 1)) as Hw.
  pose proof (wallis_sqr_lower (2 * n)) as Hsq.
  replace (S (2 * n)) with (2 * n + 1)%nat in Hsq by lia.
  replace (S (2 * n + 1)) with (2 * S n)%nat in Hsq by lia.
  rewrite mult_INR in Hsq. change (INR 2) with 2 in Hsq.
  assert (HSn : 0 < INR (S n)) by (apply lt_0_INR; lia).
  assert (H1 : (sqrt (INR n) * wallis (2 * n + 1)) * (sqrt (INR n) * wallis (2 * n + 1))
               <= gauss_int (sqrt (INR n)) * gauss_int (sqrt (INR n))).
  { apply Rmult_le_compat; try exact Hle; apply Rmult_le_pos; lra. }
  replace ((sqrt (INR n) * wallis (2 * n + 1)) * (sqrt (INR n) * wallis (2 * n + 1)))
    with (INR n * (wallis (2 * n + 1) * wallis (2 * n + 1))) in H1
    by (rewrite <- Hq at 1; ring).
  assert (H2 : INR n * (PI / (2 * (2 * INR (S n))))
               <= INR n * (wallis (2 * n + 1) * wallis (2 * n + 1)))
    by (apply Rmult_le_compat_l; lra).
  replace (INR n * (PI / (2 * (2 * INR (S n))))) with (PI / 4 * (1 - / INR (S n))) in H2
    by (rewrite S_INR; field; rewrite S_INR in HSn; lra).
  lra.
Qed.

Lemma gauss_int_incr (x y : R) : x <= y -> gauss_int x <= gauss_int y.
Proof.
  intros Hxy. apply (derivative_nonneg_incr gauss_int gauss x y Hxy).
  - intros c _. apply gauss_int_derivable.
  - intros c _. left. apply gauss_pos.
Qed.

Lemma erf_incr (x y : R) : x <= y -> erf x <= erf y.
Proof.
  intros Hxy. unfold erf. apply Rmult_le_compat_l; [| apply gauss_int_incr; exact Hxy].
  left. apply Rdiv_lt_0_compat; [lra | apply sqrt_PI_pos].
Qed.

(** [erfc] is at most [1 / (n + 1)] from [sqrt n] on. *)
Lemma erfc_tail (n : nat) (x : R) : sqrt (INR n) <= x -> erfc x <= / INR (S n).
Proof.
  intros Hx.
  pose proof (erf_incr _ _ Hx) as Hmono.
  pose proof (sqrt_pos (INR n)) as Hs.
  pose proof (erf_nonneg _ Hs) as H0. pose proof (erf_le_1 _ Hs) as H1.
  pose proof (gauss_int_sqr_lower n) as Hlow.
  pose proof sqrt_PI_pos as HP.
  pose proof (sqrt_sqrt PI (Rlt_le _ _ PI_RGT_0)) as Hq.
  pose proof PI_RGT_0 as Hpi.
  assert (Hsq : 1 - / INR (S n) <= erf (sqrt (INR n)) * erf (sqrt (INR n))).
  { unfold erf.
    replace (2 / sqrt PI * gauss_int (sqrt (INR n)) * (2 / sqrt PI * gauss_int (sqrt (INR n))))
      with (4 / (sqrt PI * sqrt PI) * (gauss_int (sqrt (INR n)) * gauss_int (sqrt (INR n))))
      by (field; lra).
    rewrite Hq.
    apply Rmult_le_reg_l with (PI / 4); [lra |].
    replace (PI / 4 * (4 / PI * (gauss_int (sqrt (INR n)) * gauss_int (sqrt (INR n)))))
      with (gauss_int (sqrt (INR n)) * gauss_int (sqrt (INR n))) by (field; lra).
    exact Hlow. }
  unfold erfc. nra.
Qed.

Lemma exists_nat_ge (r : R) : exists n : nat, r <= INR n.
Proof.
  destruct (Rle_dec r 0) as [H | H].
  - exists O. simpl. exact H.
  - assert (Hr : 0 < r) by lra.
    destruct (archimed_cor1 (/ r) (Rinv_0_lt_compat _ Hr)) as (N & HN & HN0).
    exists N. left.
    assert (HNpos : 0 < INR N) by (apply lt_0_INR; exact HN0).
    rewrite <- (Rinv_inv r), <- (Rinv_inv (INR N)).
    apply Rinv_lt_contravar; [| exact HN].
    apply Rmult_lt_0_compat; apply Rinv_0_lt_compat; assumption.
Qed.

Lemma normal_density_pos (x : R) : 0 < normal_density x.
Proof.
  unfold normal_density. apply Rmult_lt_0_compat; [| apply exp_pos].
  apply Rinv_0_lt_compat. apply sqrt_lt_R0. pose proof PI_RGT_0. lra.
Qed.

Lemma half_sqr_derivable (x : R) : derivable_pt_lim (fun u => - (u * u) / 2) x (- x).
Proof.
  replace (- x) with (- (1 * x + x * 1) * / 2) by field.
  apply (derivable_pt_lim_scal_right (fun u => - (u * u))).
  apply (derivable_pt_lim_opp (fun u => u * u)).
  apply (derivable_pt_lim_mult id id); apply derivable_pt_lim_id.
Qed.

Lemma exp_half_sqr_derivable (x : R) :
  derivable_pt_lim (fun u => exp (- (u * u) / 2)) x (- x * exp (- (x * x) / 2)).
Proof.
  rewrite Rmult_comm.
  apply (derivable_pt_lim_comp (fun u => - (u * u) / 2) exp).
  - apply half_sqr_derivable.
  - apply derivable_pt_lim_exp.
Qed.

Lemma normal_density_derivable (x : R) :
  derivable_pt_lim normal_density x (- x * normal_density x).
Proof.
  unfold normal_density.
  replace (- x * (/ sqrt (2 * PI) * exp (- (x * x) / 2)))
    with (/ sqrt (2 * PI) * (- x * exp (- (x * x) / 2))) by ring.
  apply (derivable_pt_lim_scal (fun u => exp (- (u * u) / 2))).
  apply exp_half_sqr_derivable.
Qed.

Lemma spec_N_derivable (x : R) : derivable_pt_lim spec_N x (normal_density x).
Proof. apply spec_N_density. Qed.

Lemma spec_N_incr (x y : R) : x <= y -> spec_N x <= spec_N y.
Proof.
  intros Hxy. apply (derivative_nonneg_incr spec_N normal_density x y Hxy).
  - intros c _. apply spec_N_derivable.
  - intros c _. left. apply normal_density_pos.
Qed.

Lemma spec_N_strict_incr (x y : R) : x < y -> spec_N x < spec_N y.
Proof.
  intros Hxy.
  destruct (MVT_cor2 spec_N normal_density x y Hxy (fun c _ => spec_N_derivable c))
    as (c & Hc & _).
  pose proof (normal_density_pos c) as Hp.
  assert (0 < normal_density c * (y - x)) by (apply Rmult_lt_0_compat; lra).
  lra.
Qed.

(** The lower tail of [spec_N]. *)
Lemma spec_N_tail (n : nat) (x : R) :
  x <= - sqrt (2 * INR n) -> spec_N x <= / (2 * INR (S n)).
Proof.
  intros Hx. unfold spec_N.
  assert (H2 : 0 < sqrt 2) by (apply sqrt_lt_R0; lra).
  assert (Hs : sqrt (INR n) <= - x / sqrt 2).
  { rewrite sqrt_mult in Hx by (try apply pos_INR; lra).
    apply Rmult_le_reg_r with (sqrt 2); [exact H2 |].
    replace (- x / sqrt 2 * sqrt 2) with (- x) by (field; lra). lra. }
  pose proof (erfc_tail n _ Hs) as Ht.
  assert (HSn : 0 < INR (S n)) by (apply lt_0_INR; lia).
  rewrite Rinv_mult. lra.
Qed.

(** Mills' inequality, in the form [phi x + x N x >= 0]. *)
Lemma mills_nonneg (x : R) : 0 <= normal_density x + x * spec_N x.
Proof.
  set (g := fun u => normal_density u + u * spec_N u).
  assert (Hg : forall c, derivable_pt_lim g c (spec_N c)).
  { intros c. unfold g.
    replace (spec_N c) with (- c * normal_density c + (1 * spec_N c + c * normal_density c))
      by ring.
    apply (derivable_pt_lim_plus normal_density (fun u => u * spec_N u)).
    - apply normal_density_derivable.
    - apply (derivable_pt_lim_mult id spec_N); [apply derivable_pt_lim_id | apply spec_N_derivable]. }
  assert (Hincr : forall a b, a <= b -> g a <= g b).
  { intros a b Hab. apply (derivative_nonneg_incr g spec_N a b Hab).
    - intros c _. apply Hg.
    - intros c _. apply spec_N_range. }
  apply Rnot_lt_le. intros Hneg. fold (g x) in Hneg.
  set (eps := - g x) in *.
  assert (Heps : 0 < eps) by (unfold eps; lra).
  destruct (exists_nat_ge (x * x + / (eps * eps) + 1)) as [n Hn].
  assert (He2 : 0 < / (eps * eps)) by (apply Rinv_0_lt_compat; nra).
  assert (Hn1 : 1 <= INR n) by nra.
  set (t := sqrt (2 * INR n)).
  assert (Ht2 : t * t = 2 * INR n) by (apply sqrt_sqrt; lra).
  assert (Ht : 0 < t) by (apply sqrt_lt_R0; lra).
  assert (Hyx : - t <= x) by nra.
  pose proof (Hincr _ _ Hyx) as Hle.
  pose proof (spec_N_tail n (- t) (Rle_refl _)) as Htail.
  pose proof (spec_N_range (- t)) as [HN0 _].
  pose proof (normal_density_pos (- t)) as Hphi.
  assert (Hinv : / (2 * INR (S n)) <= / (t * t)).
  { apply Rinv_le_contravar; [nra | rewrite S_INR; lra]. }
  assert (HtN : t * spec_N (- t) <= / t).
  { replace (/ t) with (t * / (t * t)) by (field; lra).
    apply Rmult_le_compat_l; lra. }
  assert (Hinvt : / t < eps).
  { rewrite <- (Rinv_inv eps). apply Rinv_lt_contravar.
    - apply Rmult_lt_0_compat; [apply Rinv_0_lt_compat |]; lra.
    - assert (/ eps * / eps < t * t).
      { rewrite <- Rinv_mult. nra. }
      assert (0 < / eps) by (apply Rinv_0_lt_compat; lra).
      nra. }
  unfold g in Hle. unfold eps in Hinvt. fold (g x) in Hle. nra.
Qed.

Lemma derivative_pos_incr (h h' : R -> R) (a b : R) :
  a < b ->
  (forall c, a <= c <= b -> derivable_pt_lim h c (h' c)) ->
  (forall c, a <= c <= b -> 0 < h' c) ->
  h a < h b.
Proof.
  intros Hlt Hd Hpos.
  destruct (MVT_cor2 h h' a b Hlt Hd) as (c & Hc & Hin).
  assert (0 < h' c * (b - a)) by (apply Rmult_lt_0_compat; [apply Hpos |]; lra).
  lra.
Qed.

Lemma spec_N_strict_range (x : R) : 0 < spec_N x < 1.
Proof.
  pose proof (spec_N_strict_incr (x - 1) x ltac:(lra)).
  pose proof (spec_N_strict_incr x (x + 1) ltac:(lra)).
  pose proof (spec_N_range (x - 1)). pose proof (spec_N_range (x + 1)). lra.
Qed.

Lemma mills_pos (x : R) : 0 < normal_density x + x * spec_N x.
Proof.
  pose proof (mills_nonneg (x - 1)) as H0.
  assert (H : normal_density (x - 1) + (x - 1) * spec_N (x - 1)
              < normal_density x + x * spec_N x).
  { apply (derivative_pos_incr (fun u => normal_density u + u * spec_N u) spec_N);
      [lra | | intros c _; apply spec_N_strict_range].
    intros c _.
    replace (spec_N c) with (- c * normal_density c + (1 * spec_N c + c * normal_density c))
      by ring.
    apply (derivable_pt_lim_plus normal_density (fun u => u * spec_N u)).
    - apply normal_density_derivable.
    - apply (derivable_pt_lim_mult id spec_N); [apply derivable_pt_lim_id | apply spec_N_derivable]. }
  lra.
Qed.

(** The ratio of [spec_N] to the density increases. *)
Lemma mills_ratio_incr (y x : R) :
  y < x ->
  spec_N y * exp (- (x * x) / 2) < spec_N x * exp (- (y * y) / 2).
Proof.
  intros Hyx.
  set (a := / sqrt (2 * PI)).
  assert (Ha : 0 < a).
  { apply Rinv_0_lt_compat. apply sqrt_lt_R0. pose proof PI_RGT_0. lra. }
  set (h := fun u => spec_N u * exp (- (y * y) / 2) - spec_N y * exp (- (u * u) / 2)).
  assert (H : h y < h x).
  { apply (derivative_pos_incr h
             (fun u => normal_density u * exp (- (y * y) / 2)
                       - spec_N y * (- u * exp (- (u * u) / 2))) y x Hyx).
    - intros c _. unfold h.
      apply (derivable_pt_lim_minus (fun u => spec_N u * exp (- (y * y) / 2))
               (fun u => spec_N y * exp (- (u * u) / 2))).
      + apply (derivable_pt_lim_scal_right spec_N). apply spec_N_derivable.
      + apply (derivable_pt_lim_scal (fun u => exp (- (u * u) / 2))).
        apply exp_half_sqr_derivable.
    - intros c Hc.
      pose proof (mills_pos y) as Hm. unfold normal_density in Hm. fold a in Hm.
      pose proof (spec_N_strict_range y) as [HN _].
      pose proof (exp_pos (- (c * c) / 2)) as Hec.
      unfold normal_density. fold a.
      replace (a * exp (- (c * c) / 2) * exp (- (y * y) / 2)
               - spec_N y * (- c * exp (- (c * c) / 2)))
        with (exp (- (c * c) / 2) * (a * exp (- (y * y) / 2) + c * spec_N y)) by ring.
      apply Rmult_lt_0_compat; [exact Hec |].
      assert (y * spec_N y <= c * spec_N y) by (apply Rmult_le_compat_r; lra).
      lra. }
  unfold h in H. lra.
Qed.

(** The identity behind the Greeks: S phi(d1) = K e^(-rT) phi(d2). *)
Lemma d1_d2_exp_identity (S K r sigma T : R) :
  in_domain S K sigma T ->
  S * exp (- (spec_d1 S K r sigma T * spec_d1 S K r sigma T) / 2) =
  K * exp (- (r * T)) *
  exp (- (spec_d2 S K r sigma T * spec_d2 S K r sigma T) / 2).
Proof.
  intros Hdom. pose proof (in_domain_divisor _ _ _ _ Hdom) as Hv.
  destruct Hdom as (HK & HSK & Hs & HT).
  pose proof (sqrt_sqrt T (Rlt_le _ _ HT)) as Hq.
  unfold spec_d2. set (d := spec_d1 S K r sigma T). set (v := sigma * sqrt T) in *.
  assert (Hdv : d * v = ln (S / K) + (r + sigma ^ 2 / 2) * T).
  { unfold d, spec_d1. fold v. field. exact Hv. }
  assert (Hvv : v * v = sigma ^ 2 * T).
  { unfold v. replace (sigma * sqrt T * (sigma * sqrt T))
      with (sigma ^ 2 * (sqrt T * sqrt T)) by ring. rewrite Hq. reflexivity. }
  replace (- ((d - v) * (d - v)) / 2)
    with (- (d * d) / 2 + (ln (S / K) + r * T))
    by (replace ((d - v) * (d - v)) with (d * d - 2 * (d * v) + v * v) by ring;
        rewrite Hdv, Hvv; field).
  rewrite !exp_plus, exp_ln by exact HSK.
  rewrite exp_Ropp. field. split; try exact HK; apply Rgt_not_eq, exp_pos.
Qed.

Lemma spec_d2_lt_d1 (S K r sigma T : R) :
  0 < sigma -> 0 < T -> spec_d2 S K r sigma T < spec_d1 S K r sigma T.
Proof.
  intros Hs HT. unfold spec_d2. pose proof (sigma_sqrtT_pos sigma T Hs HT). lra.
Qed.

Lemma spec_price_pos (S K r sigma T : R) (type : OptionType) :
  valid_input S K sigma T -> 0 < spec_price S K r sigma T type.
Proof.
  intros Hv. pose proof (valid_in_domain _ _ _ _ Hv) as Hdom.
  pose proof (d1_d2_exp_identity S K r sigma T Hdom) as Hid.
  destruct Hv as (HS & HK & Hs & HT).
  pose proof (spec_d2_lt_d1 S K r sigma T Hs HT) as Hlt.
  unfold spec_price.
  set (d1 := spec_d1 S K r sigma T) in *. set (d2 := spec_d2 S K r sigma T) in *.
  set (K' := K * exp (- (r * T))) in *.
  assert (HK' : 0 < K') by (apply Rmult_lt_0_compat; [exact HK | apply exp_pos]).
  pose proof (exp_pos (- (d1 * d1) / 2)) as HE1.
  pose proof (exp_pos (- (d2 * d2) / 2)) as HE2.
  destruct type.
  - pose proof (mills_ratio_incr d2 d1 Hlt) as Hr.
    apply Rmult_lt_reg_r with (exp (- (d1 * d1) / 2)); [exact HE1 |].
    assert (K' * (spec_N d2 * exp (- (d1 * d1) / 2))
            < K' * (spec_N d1 * exp (- (d2 * d2) / 2)))
      by (apply Rmult_lt_compat_l; assumption).
    replace ((S * spec_N d1 - K' * spec_N d2) * exp (- (d1 * d1) / 2))
      with (spec_N d1 * (S * exp (- (d1 * d1) / 2))
            - K' * (spec_N d2 * exp (- (d1 * d1) / 2))) by ring.
    rewrite Hid. lra.
  - pose proof (mills_ratio_incr (- d1) (- d2) ltac:(lra)) as Hr.
    replace (- (- d2 * - d2) / 2) with (- (d2 * d2) / 2) in Hr by (f_equal; ring).
    replace (- (- d1 * - d1) / 2) with (- (d1 * d1) / 2) in Hr by (f_equal; ring).
    apply Rmult_lt_reg_r with (exp (- (d1 * d1) / 2)); [exact HE1 |].
    assert (K' * (spec_N (- d1) * exp (- (d2 * d2) / 2))
            < K' * (spec_N (- d2) * exp (- (d1 * d1) / 2)))
      by (apply Rmult_lt_compat_l; assumption).
    replace ((K' * spec_N (- d2) - S * spec_N (- d1)) * exp (- (d1 * d1) / 2))
      with (K' * (spec_N (- d2) * exp (- (d1 * d1) / 2))
            - spec_N (- d1) * (S * exp (- (d1 * d1) / 2))) by ring.
    rewrite Hid. lra.
Qed.

Lemma spec_price_parity (S K r sigma T : R) :
  spec_price S K r sigma T CALL - spec_price S K r sigma T PUT =
  S - K * exp (- (r * T)).
Proof. unfold spec_price. rewrite !spec_N_reflect. ring. Qed.

(** ** Derivatives of the closed form *)

Section BlackScholesForm.

(** A function of the form [A N(d) - B N(d - w)] at a point where
    [A phi(d) = B phi(d - w)]. *)
Variables (A B d w : R -> R) (t A' B' d' w' : R).
Hypothesis HA : derivable_pt_lim A t A'.
Hypothesis HB : derivable_pt_lim B t B'.
Hypothesis Hd : derivable_pt_lim d t d'.
Hypothesis Hw : derivable_pt_lim w t w'.
Hypothesis Hid :
  A t * exp (- (d t * d t) / 2) = B t * exp (- ((d t - w t) * (d t - w t)) / 2).

Lemma bs_form_derivable :
  derivable_pt_lim (fun u => A u * spec_N (d u) - B u * spec_N (d u - w u)) t
    (A' * spec_N (d t) - B' * spec_N (d t - w t) + A t * normal_density (d t) * w').
Proof.
  assert (Hphi : A t * normal_density (d t) = B t * normal_density (d t - w t)).
  { unfold normal_density.
    replace (A t * (/ sqrt (2 * PI) * exp (- (d t * d t) / 2)))
      with (/ sqrt (2 * PI) * (A t * exp (- (d t * d t) / 2))) by ring.
    rewrite Hid. ring. }
  replace (A' * spec_N (d t) - B' * spec_N (d t - w t) + A t * normal_density (d t) * w')
    with ((A' * spec_N (d t) + A t * (normal_density (d t) * d'))
          - (B' * spec_N (d t - w t) + B t * (normal_density (d t - w t) * (d' - w')))).
  - apply (derivable_pt_lim_minus (fun u => A u * spec_N (d u))
             (fun u => B u * spec_N (d u - w u))).
    + apply (derivable_pt_lim_mult A (fun u => spec_N (d u))); [exact HA |].
      apply (derivable_pt_lim_comp d spec_N); [exact Hd | apply spec_N_derivable].
    + apply (derivable_pt_lim_mult B (fun u => spec_N (d u - w u))); [exact HB |].
      apply (derivable_pt_lim_comp (fun u => d u - w u) spec_N).
      * apply (derivable_pt_lim_minus d w); assumption.
      * apply spec_N_derivable.
  - replace (B t * (normal_density (d t - w t) * (d' - w')))
      with (B t * normal_density (d t - w t) * (d' - w')) by ring.
    rewrite <- Hphi. ring.
Qed.

End BlackScholesForm.

(** [d1] as a function of the spot, of the volatility and of the expiry. *)
Lemma spec_d1_derivable_S (S K r sigma T : R) :
  in_domain S K sigma T ->
  derivable_pt_lim (fun u => spec_d1 u K r sigma T) S (/ (S * (sigma * sqrt T))).
Proof.
  intros Hdom. pose proof (in_domain_divisor _ _ _ _ Hdom) as Hv.
  destruct Hdom as (HK & HSK & Hs & HT).
  assert (HS : S <> 0).
  { intros ->. unfold Rdiv in HSK. rewrite Rmult_0_l in HSK. lra. }
  assert (HsT : sqrt T <> 0) by (apply Rgt_not_eq, sqrt_lt_R0; exact HT).
  unfold spec_d1.
  replace (/ (S * (sigma * sqrt T)))
    with ((/ (S / K) * (1 * / K) + 0) * / (sigma * sqrt T)) by (field; repeat split; assumption).
  apply (derivable_pt_lim_scal_right
           (fun u => ln (u / K) + (r + sigma ^ 2 / 2) * T)).
  apply (derivable_pt_lim_plus (fun u => ln (u / K)) (fun _ => (r + sigma ^ 2 / 2) * T)).
  - apply (derivable_pt_lim_comp (fun u => u / K) ln).
    + apply (derivable_pt_lim_scal_right id). apply derivable_pt_lim_id.
    + apply derivable_pt_lim_ln. exact HSK.
  - apply derivable_pt_lim_const.
Qed.

Lemma spec_d1_derivable_sigma (S K r sigma T : R) :
  in_domain S K sigma T ->
  exists l : R, derivable_pt_lim (fun u => spec_d1 S K r u T) sigma l.
Proof.
  intros Hdom. pose proof (in_domain_divisor _ _ _ _ Hdom) as Hv.
  destruct Hdom as (HK & HSK & Hs & HT).
  eexists. unfold spec_d1.
  apply (derivable_pt_lim_div
           (fun u => ln (S / K) + (r + u ^ 2 / 2) * T) (fun u => u * sqrt T));
    [| | exact Hv].
  - apply (derivable_pt_lim_plus (fun _ => ln (S / K)) (fun u => (r + u ^ 2 / 2) * T)).
    + apply derivable_pt_lim_const.
    + apply (derivable_pt_lim_scal_right (fun u => r + u ^ 2 / 2)).
      apply (derivable_pt_lim_plus (fun _ => r) (fun u => u ^ 2 / 2)).
      * apply derivable_pt_lim_const.
      * apply (derivable_pt_lim_scal_right (fun u => u ^ 2)).
        apply derivable_pt_lim_pow.
  - apply (derivable_pt_lim_scal_right id). apply derivable_pt_lim_id.
Qed.

Lemma spec_d1_derivable_T (S K r sigma T : R) :
  in_domain S K sigma T ->
  exists l : R, derivable_pt_lim (fun u => spec_d1 S K r sigma u) T l.
Proof.
  intros Hdom. pose proof (in_domain_divisor _ _ _ _ Hdom) as Hv.
  destruct Hdom as (HK & HSK & Hs & HT).
  eexists. unfold spec_d1.
  apply (derivable_pt_lim_div
           (fun u => ln (S / K) + (r + sigma ^ 2 / 2) * u) (fun u => sigma * sqrt u));
    [| | exact Hv].
  - apply (derivable_pt_lim_plus (fun _ => ln (S / K)) (fun u => (r + sigma ^ 2 / 2) * u)).
    + apply derivable_pt_lim_const.
    + apply (derivable_pt_lim_scal id). apply derivable_pt_lim_id.
  - apply (derivable_pt_lim_scal sqrt). apply derivable_pt_lim_sqrt. exact HT.
Qed.

(** The derivative of the call price in the spot is N(d1). *)
Lemma spec_price_call_derivable_S (S K r sigma T : R) :
  in_domain S K sigma T ->
  derivable_pt_lim (fun u => spec_price u K r sigma T CALL) S
    (spec_N (spec_d1 S K r sigma T)).
Proof.
  intros Hdom.
  pose proof (bs_form_derivable (fun u => u) (fun _ => K * exp (- (r * T)))
                (fun u => spec_d1 u K r sigma T) (fun _ => sigma * sqrt T)
                S 1 0 _ 0
                (derivable_pt_lim_id S) (derivable_pt_lim_const _ S)
                (spec_d1_derivable_S S K r sigma T Hdom) (derivable_pt_lim_const _ S)
                (d1_d2_exp_identity S K r sigma T Hdom)) as H.
  cbv beta in H.
  replace (spec_N (spec_d1 S K r sigma T))
    with (1 * spec_N (spec_d1 S K r sigma T)
          - 0 * spec_N (spec_d1 S K r sigma T - sigma * sqrt T)
          + S * normal_density (spec_d1 S K r sigma T) * 0) by ring.
  exact H.
Qed.

(** The derivative of the call price in the volatility is S phi(d1) sqrt T. *)
Lemma spec_price_call_derivable_sigma (S K r sigma T : R) :
  in_domain S K sigma T ->
  derivable_pt_lim (fun u => spec_price S K r u T CALL) sigma
    (S * normal_density (spec_d1 S K r sigma T) * sqrt T).
Proof.
  intros Hdom.
  destruct (spec_d1_derivable_sigma S K r sigma T Hdom) as [l Hl].
  pose proof (bs_form_derivable (fun _ => S) (fun _ => K * exp (- (r * T)))
                (fun u => spec_d1 S K r u T) (fun u => u * sqrt T)
                sigma 0 0 l (1 * sqrt T)
                (derivable_pt_lim_const _ sigma) (derivable_pt_lim_const _ sigma) Hl
                (derivable_pt_lim_scal_right id sigma 1 (sqrt T) (derivable_pt_lim_id sigma))
                (d1_d2_exp_identity S K r sigma T Hdom)) as H.
  cbv beta in H. unfold id in H.
  replace (S * normal_density (spec_d1 S K r sigma T) * sqrt T)
    with (0 * spec_N (spec_d1 S K r sigma T)
          - 0 * spec_N (spec_d1 S K r sigma T - sigma * sqrt T)
          + S * normal_density (spec_d1 S K r sigma T) * (1 * sqrt T)) by ring.
  exact H.
Qed.

Lemma discount_derivable (K r T : R) :
  derivable_pt_lim (fun u => K * exp (- (r * u))) T (- r * (K * exp (- (r * T)))).
Proof.
  replace (- r * (K * exp (- (r * T)))) with (K * (exp (- (r * T)) * (- (r * 1)))) by ring.
  apply (derivable_pt_lim_scal (fun u => exp (- (r * u)))).
  apply (derivable_pt_lim_comp (fun u => - (r * u)) exp).
  - apply (derivable_pt_lim_opp (fun u => r * u)).
    apply (derivable_pt_lim_scal id). apply derivable_pt_lim_id.
  - apply derivable_pt_lim_exp.
Qed.

(** The derivative of the call price in the time to expiry. *)
Lemma spec_price_call_derivable_T (S K r sigma T : R) :
  in_domain S K sigma T ->
  derivable_pt_lim (fun u => spec_price S K r sigma u CALL) T
    (r * K * exp (- (r * T)) * spec_N (spec_d2 S K r sigma T)
     + S * normal_density (spec_d1 S K r sigma T) * sigma / (2 * sqrt T)).
Proof.
  intros Hdom.
  destruct (spec_d1_derivable_T S K r sigma T Hdom) as [l Hl].
  assert (HT : 0 < T) by (destruct Hdom as (_ & _ & _ & HT); exact HT).
  pose proof (sqrt_lt_R0 T HT) as HsT.
  pose proof (bs_form_derivable (fun _ => S) (fun u => K * exp (- (r * u)))
                (fun u => spec_d1 S K r sigma u) (fun u => sigma * sqrt u)
                T 0 _ l _
                (derivable_pt_lim_const _ T) (discount_derivable K r T) Hl
                (derivable_pt_lim_scal sqrt sigma T _ (derivable_pt_lim_sqrt T HT))
                (d1_d2_exp_identity S K r sigma T Hdom)) as H.
  cbv beta in H.
  replace (r * K * exp (- (r * T)) * spec_N (spec_d2 S K r sigma T)
           + S * normal_density (spec_d1 S K r sigma T) * sigma / (2 * sqrt T))
    with (0 * spec_N (spec_d1 S K r sigma T)
          - - r * (K * exp (- (r * T))) * spec_N (spec_d1 S K r sigma T - sigma * sqrt T)
          + S * normal_density (spec_d1 S K r sigma T) * (sigma * / (2 * sqrt T)))
    by (unfold spec_d2; field; lra).
  exact H.
Qed.

(** A put is the call less the forward, as functions of any parameter. *)
Lemma spec_price_put_eq (S K r sigma T : R) :
  spec_price S K r sigma T PUT =
  spec_price S K r sigma T CALL - (S - K * exp (- (r * T))).
Proof. pose proof (spec_price_parity S K r sigma T). lra. Qed.

Lemma spec_price_put_derivable_S (S K r sigma T : R) :
  in_domain S K sigma T ->
  derivable_pt_lim (fun u => spec_price u K r sigma T PUT) S
    (spec_N (spec_d1 S K r sigma T) - 1).
Proof.
  intros Hdom.
  apply (derivable_pt_lim_ext
           (fun u => spec_price u K r sigma T CALL - (u - K * exp (- (r * T)))));
    [intros z; symmetry; apply spec_price_put_eq |].
  apply (derivable_pt_lim_minus (fun u => spec_price u K r sigma T CALL)
           (fun u => u - K * exp (- (r * T)))).
  - apply spec_price_call_derivable_S. exact Hdom.
  - replace 1 with (1 - 0) by ring.
    apply (derivable_pt_lim_minus id (fun _ => K * exp (- (r * T))));
      [apply derivable_pt_lim_id | apply derivable_pt_lim_const].
Qed.

Lemma spec_price_put_derivable_sigma (S K r sigma T : R) :
  in_domain S K sigma T ->
  derivable_pt_lim (fun u => spec_price S K r u T PUT) sigma
    (S * normal_density (spec_d1 S K r sigma T) * sqrt T).
Proof.
  intros Hdom.
  apply (derivable_pt_lim_ext
           (fun u => spec_price S K r u T CALL - (S - K * exp (- (r * T)))));
    [intros z; symmetry; apply spec_price_put_eq |].
  replace (S * normal_density (spec_d1 S K r sigma T) * sqrt T)
    with (S * normal_density (spec_d1 S K r sigma T) * sqrt T - 0) by ring.
  apply (derivable_pt_lim_minus (fun u => spec_price S K r u T CALL)
           (fun _ => S - K * exp (- (r * T)))).
  - apply spec_price_call_derivable_sigma. exact Hdom.
  - apply derivable_pt_lim_const.
Qed.

Lemma spec_price_put_derivable_T (S K r sigma T : R) :
  in_domain S K sigma T ->
  derivable_pt_lim (fun u => spec_price S K r sigma u PUT) T
    (- (r * K * exp (- (r * T)) * spec_N (- spec_d2 S K r sigma T))
     + S * normal_density (spec_d1 S K r sigma T) * sigma / (2 * sqrt T)).
Proof.
  intros Hdom.
  apply (derivable_pt_lim_ext
           (fun u => spec_price S K r sigma u CALL - (S - K * exp (- (r * u)))));
    [intros z; symmetry; apply spec_price_put_eq |].
  replace (- (r * K * exp (- (r * T)) * spec_N (- spec_d2 S K r sigma T))
           + S * normal_density (spec_d1 S K r sigma T) * sigma / (2 * sqrt T))
    with ((r * K * exp (- (r * T)) * spec_N (spec_d2 S K r sigma T)
           + S * normal_density (spec_d1 S K r sigma T) * sigma / (2 * sqrt T))
          - (0 - - r * (K * exp (- (r * T)))))
    by (rewrite spec_N_reflect; ring).
  apply (derivable_pt_lim_minus (fun u => spec_price S K r sigma u CALL)
           (fun u => S - K * exp (- (r * u)))).
  - apply spec_price_call_derivable_T. exact Hdom.
  - apply (derivable_pt_lim_minus (fun _ => S) (fun u => K * exp (- (r * u))));
      [apply derivable_pt_lim_const | apply discount_derivable].
Qed.

(** The derivative of delta in the spot is phi(d1) / (S sigma sqrt T). *)
Lemma spec_delta_derivable_S (S K r sigma T : R) (type : OptionType) :
  in_domain S K sigma T ->
  derivable_pt_lim (fun u => spec_delta u K r sigma T type) S
    (normal_density (spec_d1 S K r sigma T) / (S * sigma * sqrt T)).
Proof.
  intros Hdom.
  pose proof (spec_d1_derivable_S S K r sigma T Hdom) as Hd.
  assert (HN : derivable_pt_lim (fun u => spec_N (spec_d1 u K r sigma T)) S
                 (normal_density (spec_d1 S K r sigma T) / (S * sigma * sqrt T))).
  { unfold Rdiv. rewrite Rmult_assoc.
    apply (derivable_pt_lim_comp (fun u => spec_d1 u K r sigma T) spec_N);
      [exact Hd | apply spec_N_derivable]. }
  destruct type; unfold spec_delta; [exact HN |].
  replace (normal_density (spec_d1 S K r sigma T) / (S * sigma * sqrt T))
    with (normal_density (spec_d1 S K r sigma T) / (S * sigma * sqrt T) - 0) by ring.
  apply (derivable_pt_lim_minus (fun u => spec_N (spec_d1 u K r sigma T)) (fun _ => 1));
    [exact HN | apply derivable_pt_lim_const].
Qed.

Lemma spec_N_limits (eps : R) :
  0 < eps ->
  exists M : R, forall x : R,
    (x <= - M -> spec_N x < eps) /\ (M <= x -> 1 - eps < spec_N x).
Proof.
  intros Heps.
  destruct (archimed_cor1 eps Heps) as (N & HN & HN0).
  exists (sqrt (2 * INR N)).
  assert (HNpos : 0 < INR N) by (apply lt_0_INR; exact HN0).
  assert (Hsmall : / (2 * INR (S N)) < eps).
  { apply Rle_lt_trans with (2 := HN). apply Rinv_le_contravar; [exact HNpos |].
    rewrite S_INR. lra. }
  intros x. split; intros Hx.
  - pose proof (spec_N_tail N x Hx). lra.
  - assert (Hx' : - x <= - sqrt (2 * INR N)) by lra.
    pose proof (spec_N_tail N (- x) Hx') as Ht.
    rewrite spec_N_reflect in Ht. lra.
Qed.


Lemma spec_N'_even (x : R) : spec_N' (- x) = spec_N' x.
Proof. unfold spec_N'. do 2 f_equal. f_equal. ring. Qed.

Lemma spec_N'_le_peak (x : R) : spec_N' x <= 0.3989422804014327.
Proof.
  unfold spec_N'.
  assert (exp (- (x * x) / 2) <= 1).
  { rewrite <- exp_0. destruct (Req_dec x 0) as [-> | Hx].
    - right. f_equal. field.
    - left. apply exp_increasing. nra. }
  nra.
Qed.

Lemma spec_N'_decr (x y : R) : Rabs x < Rabs y -> spec_N' y < spec_N' x.
Proof.
  intros Hxy. unfold spec_N'.
  apply Rmult_lt_compat_l; [lra |]. apply exp_increasing.
  assert (x * x < y * y).
  { rewrite <- (Rabs_right (x * x)), <- (Rabs_right (y * y)) by nra.
    rewrite !Rabs_mult. pose proof (Rabs_pos x). nra. }
  lra.
Qed.

(** S N'(d1) = K e^(-rT) N'(d2), with the kernel's density. *)
Lemma spec_N'_identity (S K r sigma T : R) :
  in_domain S K sigma T ->
  S * spec_N' (spec_d1 S K r sigma T) =
  K * exp (- (r * T)) * spec_N' (spec_d2 S K r sigma T).
Proof.
  intros Hdom. pose proof (d1_d2_exp_identity S K r sigma T Hdom) as Hid.
  unfold spec_N'.
  replace (S * (0.3989422804014327 * exp (- (spec_d1 S K r sigma T * spec_d1 S K r sigma T) / 2)))
    with (0.3989422804014327 * (S * exp (- (spec_d1 S K r sigma T * spec_d1 S K r sigma T) / 2)))
    by ring.
  rewrite Hid. ring.
Qed.


(** The closed form scales with the currency unit. *)
Lemma spec_d1_scale (c S K r sigma T : R) :
  c <> 0 -> K <> 0 -> spec_d1 (c * S) (c * K) r sigma T = spec_d1 S K r sigma T.
Proof.
  intros Hc HK. unfold spec_d1.
  replace (c * S / (c * K)) with (S / K) by (field; split; assumption). reflexivity.
Qed.

Lemma in_domain_scale (c S K sigma T : R) :
  c <> 0 -> in_domain (c * S) (c * K) sigma T <-> in_domain S K sigma T.
Proof.
  intros Hc. unfold in_domain. split.
  - intros (HK & HSK & Hs & HT).
    assert (HK0 : K <> 0) by (intros ->; apply HK; ring).
    replace (c * S / (c * K)) with (S / K) in HSK by (field; split; assumption).
    tauto.
  - intros (HK & HSK & Hs & HT).
    replace (c * S / (c * K)) with (S / K) by (field; split; assumption).
    repeat split; try assumption. apply Rmult_integral_contrapositive_currified; assumption.
Qed.

Lemma spec_price_scale (c S K r sigma T : R) (type : OptionType) :
  c <> 0 -> K <> 0 ->
  spec_price (c * S) (c * K) r sigma T type = c * spec_price S K r sigma T type.
Proof.
  intros Hc HK. unfold spec_price, spec_d2.
  rewrite spec_d1_scale by assumption. destruct type; ring.
Qed.




Lemma spec_N'_error (x c : R) :
  0 <= c -> Rabs (c * spec_N' x - c * normal_density x) <= c * (1 / 10 ^ 16).
Proof.
  intros Hc. rewrite <- Rmult_minus_distr_l, Rabs_mult, (Rabs_pos_eq c) by exact Hc.
  apply Rmult_le_compat_l; [exact Hc |]. left. apply spec_N'_accurate.
Qed.





Lemma ln_monotone (x y : R) : 0 < x -> x <= y -> ln x <= ln y.
Proof.
  intros Hx [Hlt | ->]; [left; apply ln_increasing; assumption | right; reflexivity].
Qed.

Lemma spec_delta_incr_S (K r sigma T S1 S2 : R) (type : OptionType) :
  0 < K -> 0 < sigma -> 0 < T -> 0 < S1 -> S1 < S2 ->
  spec_delta S1 K r sigma T type < spec_delta S2 K r sigma T type.
Proof.
  intros HK Hs HT HS1 H12.
  apply (derivative_pos_incr (fun u => spec_delta u K r sigma T type)
           (fun u => normal_density (spec_d1 u K r sigma T) / (u * sigma * sqrt T))
           S1 S2 H12).
  - intros c Hc. apply spec_delta_derivable_S.
    apply valid_in_domain. repeat split; lra.
  - intros c Hc. apply Rdiv_lt_0_compat; [apply normal_density_pos |].
    apply Rmult_lt_0_compat; [apply Rmult_lt_0_compat; lra | apply sqrt_lt_R0; exact HT].
Qed.

Lemma spec_d1_large (K r sigma T M S : R) :
  0 < K -> 0 < sigma -> 0 < T ->
  K * exp (M * (sigma * sqrt T) - (r + sigma ^ 2 / 2) * T) <= S ->
  M <= spec_d1 S K r sigma T.
Proof.
  intros HK Hs HT HS.
  pose proof (sigma_sqrtT_pos sigma T Hs HT) as Hv.
  pose proof (sqrt_lt_R0 T HT) as HsT.
  set (a := M * (sigma * sqrt T) - (r + sigma ^ 2 / 2) * T) in *.
  assert (Hexp : exp a <= S / K).
  { apply Rmult_le_reg_r with K; [exact HK |].
    replace (S / K * K) with S by (field; lra). lra. }
  assert (Hln : a <= ln (S / K)).
  { rewrite <- (ln_exp a). apply ln_monotone; [apply exp_pos | exact Hexp]. }
  unfold spec_d1. apply Rmult_le_reg_r with (sigma * sqrt T); [exact Hv |].
  replace ((ln (S / K) + (r + sigma ^ 2 / 2) * T) / (sigma * sqrt T) * (sigma * sqrt T))
    with (ln (S / K) + (r + sigma ^ 2 / 2) * T) by (field; split; lra).
  unfold a in Hln. lra.
Qed.

Lemma spec_d1_small (K r sigma T M S : R) :
  0 < K -> 0 < sigma -> 0 < T -> 0 < S ->
  S <= K * exp (- M * (sigma * sqrt T) - (r + sigma ^ 2 / 2) * T) ->
  spec_d1 S K r sigma T <= - M.
Proof.
  intros HK Hs HT HS0 HS.
  pose proof (sigma_sqrtT_pos sigma T Hs HT) as Hv.
  pose proof (sqrt_lt_R0 T HT) as HsT.
  set (a := - M * (sigma * sqrt T) - (r + sigma ^ 2 / 2) * T) in *.
  assert (HSK : 0 < S / K) by (apply Rdiv_lt_0_compat; assumption).
  assert (Hexp : S / K <= exp a).
  { apply Rmult_le_reg_r with K; [exact HK |].
    replace (S / K * K) with S by (field; lra). lra. }
  assert (Hln : ln (S / K) <= a).
  { rewrite <- (ln_exp a). apply ln_monotone; [exact HSK | exact Hexp]. }
  unfold spec_d1. apply Rmult_le_reg_r with (sigma * sqrt T); [exact Hv |].
  replace ((ln (S / K) + (r + sigma ^ 2 / 2) * T) / (sigma * sqrt T) * (sigma * sqrt T))
    with (ln (S / K) + (r + sigma ^ 2 / 2) * T) by (field; split; lra).
  unfold a in Hln. lra.
Qed.

(** ** Evaluation of the operations on doubles *)

Ltac case_deciders :=
  repeat match goal with
         | |- context [Req_dec_T ?a ?b] => destruct (Req_dec_T a b)
         | |- context [Rle_dec ?a ?b] => destruct (Rle_dec a b)
         | |- context [Rlt_dec ?a ?b] => destruct (Rlt_dec a b)
         end.

Lemma finite_nonzero (s : bool) (x : R) : x <> 0 -> finite s x = Finite x.
Proof.
  intros Hx. unfold finite. destruct (Req_dec_T x 0); [contradiction | reflexivity].
Qed.

Lemma finite_positive_sign (x : R) : finite false x = Finite x.
Proof.
  unfold finite. destruct (Req_dec_T x 0) as [-> |]; reflexivity.
Qed.

Lemma value_finite (s : bool) (x : R) : value (finite s x) = Some x.
Proof.
  unfold finite. destruct (Req_dec_T x 0) as [-> |]; [destruct s |]; reflexivity.
Qed.

Lemma value_zero (s : bool) : value (zero s) = Some 0.
Proof. destruct s; reflexivity. Qed.

Lemma value_infinity (s : bool) : value (infinity s) = None.
Proof. destruct s; reflexivity. Qed.

(** A double with a non-zero real value is the [Finite] of that value. *)
Lemma value_nonzero (a : double) (x : R) : value a = Some x -> x <> 0 -> a = Finite x.
Proof.
  destruct a; cbn; intros E Hx; try discriminate; injection E as <-;
    [reflexivity | exfalso; apply Hx; reflexivity].
Qed.

Lemma signbit_nonneg (x : R) : 0 <= x -> signbit x = false.
Proof.
  intros Hx. cbn. destruct (Rlt_dec x 0); [lra | reflexivity].
Qed.

(** The real value of the result of an operation on finite doubles. *)
Lemma value_fneg (a : double) (x : R) : value a = Some x -> value (fneg a) = Some (- x).
Proof.
  destruct a; cbn; intros E; try discriminate; injection E as <-.
  - apply value_finite.
  - f_equal. lra.
Qed.

Lemma value_fadd (a b : double) (x y : R) :
  value a = Some x -> value b = Some y -> value (fadd a b) = Some (x + y).
Proof.
  destruct a, b; cbn; intros Ea Eb; try discriminate;
    injection Ea as <-; injection Eb as <-; f_equal; lra.
Qed.

Lemma value_fsub (a b : double) (x y : R) :
  value a = Some x -> value b = Some y -> value (fsub a b) = Some (x - y).
Proof.
  intros Ea Eb. unfold fsub.
  rewrite (value_fadd a (fneg b) x (- y) Ea (value_fneg b y Eb)). reflexivity.
Qed.

Lemma value_fmul (a b : double) (x y : R) :
  value a = Some x -> value b = Some y -> value (fmul a b) = Some (x * y).
Proof.
  intros Ea Eb. unfold fmul. rewrite Ea, Eb.
  destruct a, b; try discriminate; apply value_finite.
Qed.

Lemma value_fdiv (a b : double) (x y : R) :
  value a = Some x -> value b = Some y -> y <> 0 -> value (fdiv a b) = Some (x / y).
Proof.
  intros Ea Eb Hy. unfold fdiv. rewrite Ea, Eb.
  destruct (Req_dec_T y 0); [contradiction |].
  destruct a, b; try discriminate; apply value_finite.
Qed.

Lemma value_sqrt (a : double) (x : R) :
  value a = Some x -> 0 <= x -> value (std.sqrt a) = Some (sqrt x).
Proof.
  destruct a as [z | | | |]; cbn; intros E Hx; try discriminate; injection E as E; subst.
  - case_deciders; [reflexivity | contradiction].
  - rewrite sqrt_0. reflexivity.
Qed.

Lemma log_value (a : double) (x : R) :
  value a = Some x -> 0 < x -> std.log a = Finite (ln x).
Proof.
  destruct a as [z | | | |]; cbn; intros E Hx; try discriminate; injection E as E; subst.
  - match goal with |- context [Rlt_dec 0 ?v] => destruct (Rlt_dec 0 v) end;
      [reflexivity | contradiction].
  - lra.
Qed.

Lemma exp_value (a : double) (x : R) : value a = Some x -> std.exp a = Finite (exp x).
Proof.
  destruct a; cbn; intros E; try discriminate; injection E as <-;
    [reflexivity | rewrite exp_0; reflexivity].
Qed.

Lemma erfc_value (a : double) (x : R) : value a = Some x -> std.erfc a = Finite (erfc x).
Proof.
  destruct a; cbn; intros E; try discriminate; injection E as <-;
    [reflexivity | rewrite erfc_0; reflexivity].
Qed.

(** The operations on [Finite] arguments. *)
Lemma fadd_finite (x y : R) : fadd x y = Finite (x + y).
Proof. reflexivity. Qed.

Lemma fneg_finite (x : R) : x <> 0 -> fneg x = Finite (- x).
Proof.
  intros Hx. cbn. apply finite_nonzero. lra.
Qed.

Lemma fsub_finite_l (x : R) (b : double) (y : R) :
  value b = Some y -> fsub x b = Finite (x - y).
Proof.
  destruct b as [z | | | |]; cbn; intros E; try discriminate; injection E as <-.
  - unfold fsub. cbn. unfold finite. destruct (Req_dec_T (- z) 0) as [E |].
    + cbn. f_equal. lra.
    + reflexivity.
  - unfold fsub. cbn. f_equal. lra.
Qed.

Lemma fsub_finite (x y : R) : fsub x y = Finite (x - y).
Proof. apply fsub_finite_l. reflexivity. Qed.

Lemma fadd_finite_l (x : R) (b : double) (y : R) :
  value b = Some y -> fadd x b = Finite (x + y).
Proof.
  destruct b; cbn; intros E; try discriminate; injection E as <-;
    [reflexivity | f_equal; lra].
Qed.

(** A product of finite numbers is the [Finite] of the real product unless
    it is a zero of negative sign. *)
Lemma fmul_finite (x y : R) :
  (x = 0 -> 0 <= y) -> (y = 0 -> 0 <= x) -> fmul x y = Finite (x * y).
Proof.
  intros Hx Hy. unfold fmul. cbn [value]. unfold finite.
  destruct (Req_dec_T (x * y) 0) as [E | _]; [| reflexivity].
  destruct (Rmult_integral _ _ E) as [Ex | Ey].
  - rewrite (signbit_nonneg x) by lra. rewrite (signbit_nonneg y (Hx Ex)).
    cbn. rewrite E. reflexivity.
  - rewrite (signbit_nonneg y) by lra. rewrite (signbit_nonneg x (Hy Ey)).
    cbn. rewrite E. reflexivity.
Qed.

Lemma fmul_finite_nonzero (x y : R) : x <> 0 -> y <> 0 -> fmul x y = Finite (x * y).
Proof.
  intros Hx Hy. apply fmul_finite; intros E; contradiction.
Qed.

Lemma fdiv_finite (x y : R) :
  y <> 0 -> (x = 0 -> 0 < y) -> fdiv x y = Finite (x / y).
Proof.
  intros Hy Hx. unfold fdiv. cbn [value].
  destruct (Req_dec_T y 0); [contradiction |]. unfold finite.
  destruct (Req_dec_T (x / y) 0) as [E | _]; [| reflexivity].
  assert (Ex : x = 0).
  { apply (Rmult_eq_reg_r (/ y)); [| apply Rinv_neq_0_compat; exact Hy].
    rewrite Rmult_0_l. exact E. }
  rewrite (signbit_nonneg x) by lra. rewrite (signbit_nonneg y) by (specialize (Hx Ex); lra).
  cbn. rewrite E. reflexivity.
Qed.

Lemma fdiv_finite_nonzero (x y : R) : x <> 0 -> y <> 0 -> fdiv x y = Finite (x / y).
Proof.
  intros Hx Hy. apply fdiv_finite; [exact Hy | intros E; contradiction].
Qed.

Lemma sqrt_finite (x : R) : 0 <= x -> std.sqrt x = Finite (sqrt x).
Proof.
  intros Hx. cbn. destruct (Rle_dec 0 x) as [_ | N]; [reflexivity | contradiction].
Qed.

Lemma log_finite (x : R) : 0 < x -> std.log x = Finite (ln x).
Proof. intros Hx. apply log_value; [reflexivity | exact Hx]. Qed.

(** Division by a zero, and by a NaN, has no finite result. *)
Lemma fdiv_by_zero (a b : double) : value b = Some 0 -> value (fdiv a b) = None.
Proof.
  intros Eb. unfold fdiv. rewrite Eb.
  destruct (Req_dec_T 0 0) as [_ | N]; [| exfalso; apply N; reflexivity].
  destruct a, b; try discriminate; cbn [value];
    try reflexivity; try apply value_infinity;
    destruct (Req_dec_T _ 0); try reflexivity; apply value_infinity.
Qed.

Lemma fdiv_nan_r (a : double) : fdiv a NaN = NaN.
Proof. destruct a; reflexivity. Qed.

(** ** The kernel on finite doubles *)

Lemma norm_cdf_value (a : double) (x : R) :
  value a = Some x -> norm_cdf a = Finite (spec_N x).
Proof.
  intros Ea. unfold norm_cdf, spec_N.
  rewrite sqrt_finite by lra.
  assert (H2 : sqrt 2.0 = sqrt 2) by (f_equal; lra).
  rewrite (erfc_value _ (- x / sqrt 2)).
  - rewrite fdiv_finite by (intros; lra). f_equal. lra.
  - rewrite <- H2. apply value_fdiv; [apply value_fneg; exact Ea | reflexivity |].
    rewrite H2. apply sqrt2_neq_0.
Qed.

Lemma norm_cdf_finite (x : R) : norm_cdf x = Finite (spec_N x).
Proof. apply norm_cdf_value. reflexivity. Qed.

Lemma norm_pdf_value (a : double) (x : R) :
  value a = Some x -> norm_pdf a = Finite (spec_N' x).
Proof.
  intros Ea. unfold norm_pdf, spec_N', INV_SQRT_2PI.
  rewrite (exp_value _ (-0.5 * x * x))
    by (apply value_fmul; [apply value_fmul; [reflexivity |] |]; exact Ea).
  pose proof (exp_pos (-0.5 * x * x)) as He.
  rewrite fmul_finite by (intros; lra).
  replace (-0.5 * x * x) with (- (x * x) / 2) by lra. reflexivity.
Qed.

Lemma norm_pdf_finite (x : R) : norm_pdf x = Finite (spec_N' x).
Proof. apply norm_pdf_value. reflexivity. Qed.

(** The discount factor. *)
Lemma discount_finite (r T : R) : std.exp (fmul (fneg r) T) = Finite (exp (- (r * T))).
Proof.
  rewrite (exp_value _ (- r * T))
    by (apply value_fmul; [apply value_fneg |]; reflexivity).
  f_equal. f_equal. ring.
Qed.

(** The divisor of [d1]. *)
Lemma divisor_value (sigma T : R) :
  0 <= T -> value (fmul sigma (std.sqrt T)) = Some (sigma * sqrt T).
Proof.
  intros HT. apply value_fmul; [reflexivity |]. rewrite sqrt_finite by exact HT. reflexivity.
Qed.

Lemma d1_value (S K r sigma T : R) :
  in_domain S K sigma T -> value (d1 S K r sigma T) = Some (spec_d1 S K r sigma T).
Proof.
  intros Hdom. pose proof (in_domain_divisor _ _ _ _ Hdom) as Hden.
  destruct Hdom as (HK & HSK & Hs & HT). unfold d1, spec_d1.
  replace (sigma ^ 2 / 2) with (0.5 * sigma * sigma) by (simpl; lra).
  apply value_fdiv; [| apply divisor_value; lra | exact Hden].
  apply value_fadd.
  - rewrite (log_value _ (S / K)); [reflexivity | | exact HSK].
    apply value_fdiv; [reflexivity | reflexivity | exact HK].
  - apply value_fmul; [| reflexivity].
    apply value_fadd; [reflexivity |].
    apply value_fmul; [| reflexivity]. apply value_fmul; reflexivity.
Qed.

Lemma d2_value (S K r sigma T : R) :
  in_domain S K sigma T ->
  value (d2 (d1 S K r sigma T) sigma T) = Some (spec_d2 S K r sigma T).
Proof.
  intros Hdom. unfold d2, spec_d2.
  apply value_fsub; [apply d1_value; exact Hdom |].
  apply divisor_value. destruct Hdom as (_ & _ & _ & HT). lra.
Qed.

(** On valid inputs [d1] and [d2] are not the negative zero. *)
Lemma d1_finite (S K r sigma T : R) :
  valid_input S K sigma T -> d1 S K r sigma T = Finite (spec_d1 S K r sigma T).
Proof.
  intros Hv. pose proof (valid_in_domain _ _ _ _ Hv) as (_ & HSK & _).
  destruct Hv as (HS & HK & Hs & HT).
  pose proof (sigma_sqrtT_pos sigma T Hs HT) as Hden.
  unfold d1, spec_d1.
  rewrite fdiv_finite_nonzero by lra.
  rewrite log_finite by exact HSK.
  rewrite sqrt_finite by lra.
  rewrite (fmul_finite 0.5 sigma) by (intros; lra).
  rewrite (fmul_finite (0.5 * sigma) sigma) by (intros; lra).
  rewrite !fadd_finite.
  rewrite (fmul_finite _ T) by (intros; lra).
  rewrite fadd_finite.
  rewrite (fmul_finite sigma (sqrt T)) by (intros; nra).
  rewrite fdiv_finite by (intros; lra).
  replace (0.5 * sigma * sigma) with (sigma ^ 2 / 2) by (simpl; lra).
  reflexivity.
Qed.

Lemma d2_finite (S K r sigma T : R) :
  valid_input S K sigma T ->
  d2 (d1 S K r sigma T) sigma T = Finite (spec_d2 S K r sigma T).
Proof.
  intros Hv. rewrite (d1_finite _ _ _ _ _ Hv). unfold d2, spec_d2.
  apply fsub_finite_l. apply divisor_value.
  destruct Hv as (_ & _ & _ & HT). lra.
Qed.

Lemma price_option_finite (S K r sigma T : R) (type : OptionType) :
  in_domain S K sigma T ->
  price_option S K r sigma T type = Finite (spec_price S K r sigma T type).
Proof.
  intros Hdom. unfold price_option, spec_price.
  pose proof (d1_value S K r sigma T Hdom) as E1.
  pose proof (d2_value S K r sigma T Hdom) as E2.
  rewrite discount_finite.
  rewrite (norm_cdf_value _ _ E1), (norm_cdf_value _ _ E2).
  rewrite (norm_cdf_value _ _ (value_fneg _ _ E1)), (norm_cdf_value _ _ (value_fneg _ _ E2)).
  destruct Hdom as (HK & HSK & Hs & HT).
  assert (HS : S <> 0).
  { intros ->. unfold Rdiv in HSK. rewrite Rmult_0_l in HSK. lra. }
  pose proof (exp_pos (- (r * T))) as He.
  assert (HKe : K * exp (- (r * T)) <> 0).
  { apply Rmult_integral_contrapositive_currified; lra. }
  assert (HN : forall x : R, spec_N x <> 0).
  { intros x. pose proof (spec_N_strict_range x). lra. }
  destruct type.
  - rewrite (fmul_finite_nonzero S) by auto.
    rewrite (fmul_finite_nonzero K) by lra.
    rewrite fmul_finite_nonzero by auto.
    apply fsub_finite.
  - rewrite (fmul_finite_nonzero S) by auto.
    rewrite (fmul_finite_nonzero K) by lra.
    rewrite fmul_finite_nonzero by auto.
    apply fsub_finite.
Qed.

Lemma compute_greeks_finite (S K r sigma T : R) (type : OptionType) :
  in_domain S K sigma T ->
  compute_greeks S K r sigma T type =
  mkGreeks (spec_delta S K r sigma T type) (spec_gamma S K r sigma T)
    (spec_vega S K r sigma T) (spec_theta S K r sigma T type).
Proof.
  intros Hdom. unfold compute_greeks.
  pose proof (d1_value S K r sigma T Hdom) as E1.
  pose proof (d2_value S K r sigma T Hdom) as E2.
  pose proof (in_domain_divisor _ _ _ _ Hdom) as Hdiv.
  destruct Hdom as (HK & HSK & Hs & HT).
  pose proof (sqrt_lt_R0 T HT) as HsqT.
  assert (HS : S <> 0).
  { intros ->. unfold Rdiv in HSK. rewrite Rmult_0_l in HSK. lra. }
  pose proof (spec_N'_pos (spec_d1 S K r sigma T)) as HN'.
  rewrite discount_finite, sqrt_finite by lra.
  rewrite (norm_pdf_value _ _ E1).
  rewrite (norm_cdf_value _ _ E1), (norm_cdf_value _ _ E2).
  rewrite (norm_cdf_value _ _ (value_fneg _ _ E2)).
  unfold set_delta, set_gamma, set_vega, set_theta.
  assert (HSs : S * sigma <> 0)
    by (apply Rmult_integral_contrapositive_currified; assumption).
  assert (HSn : S * spec_N' (spec_d1 S K r sigma T) <> 0)
    by (apply Rmult_integral_contrapositive_currified; lra).
  assert (HSns : S * spec_N' (spec_d1 S K r sigma T) * sigma <> 0)
    by (apply Rmult_integral_contrapositive_currified; assumption).
  (* gamma *)
  rewrite (fmul_finite_nonzero S sigma) by assumption.
  rewrite (fmul_finite_nonzero (S * sigma) (sqrt T)) by lra.
  assert (HNn : spec_N' (spec_d1 S K r sigma T) <> 0) by lra.
  assert (HD : S * sigma * sqrt T <> 0)
    by (apply Rmult_integral_contrapositive_currified; lra).
  rewrite (fdiv_finite_nonzero (spec_N' _)) by assumption.
  (* vega *)
  rewrite (fmul_finite_nonzero S (spec_N' _)) by lra.
  rewrite (fmul_finite_nonzero (S * spec_N' _) (sqrt T)) by lra.
  rewrite (fdiv_finite _ 100.0) by (intros; lra).
  (* the common term of theta *)
  rewrite (fmul_finite_nonzero (S * spec_N' _) sigma) by assumption.
  rewrite fneg_finite by assumption.
  rewrite (fmul_finite 2.0 (sqrt T)) by (intros; lra).
  rewrite (fdiv_finite_nonzero (- _) (2.0 * sqrt T)) by lra.
  replace 100.0 with 100 by lra. replace 2.0 with 2 by lra.
  destruct type; cbn [delta gamma vega theta].
  - rewrite (fsub_finite_l _ _ (r * K * exp (- (r * T)) * spec_N (spec_d2 S K r sigma T)))
      by (repeat apply value_fmul; reflexivity).
    rewrite (fdiv_finite _ 365.0) by (intros; lra).
    unfold spec_delta, spec_gamma, spec_vega, spec_theta.
    replace 365.0 with 365 by lra. reflexivity.
  - rewrite (fadd_finite_l _ _ (r * K * exp (- (r * T)) * spec_N (- spec_d2 S K r sigma T)))
      by (repeat apply value_fmul; reflexivity).
    rewrite (fdiv_finite _ 365.0) by (intros; lra).
    rewrite fsub_finite.
    unfold spec_delta, spec_gamma, spec_vega, spec_theta.
    replace 365.0 with 365 by lra. replace 1.0 with 1 by lra. reflexivity.
Qed.

(** The kernel on an at-the-money contract with a zero rate. *)
Example d1_at_the_money : d1 100 100 0 0.2 1 = Finite 0.1.
Proof.
  rewrite d1_finite by (unfold valid_input; lra).
  f_equal. unfold spec_d1.
  replace (100 / 100) with 1 by lra. rewrite ln_1, sqrt_1. simpl. lra.
Qed.

Example norm_cdf_at_0 : norm_cdf 0 = Finite 0.5.
Proof.
  rewrite norm_cdf_finite, spec_N_at_0. f_equal. lra.
Qed.

(** ** Inputs outside the precondition *)



(** When the result of an operation is a finite number, so are its
    arguments. *)
Lemma fdiv_value_inv (a b : double) :
  value (fdiv a b) <> None -> b <> PInf -> b <> NInf ->
  value a <> None /\ exists y : R, value b = Some y /\ y <> 0.
Proof.
  intros H Hp Hn.
  destruct b as [y | | | |]; try contradiction.
  - destruct (Req_dec_T y 0) as [-> | Hy].
    + exfalso. apply H. apply fdiv_by_zero. reflexivity.
    + split; [| exists y; split; [reflexivity | exact Hy]].
      destruct a; cbn [value]; try discriminate; exfalso; apply H;
        first [reflexivity | apply value_infinity].
  - exfalso. apply H. apply fdiv_by_zero. reflexivity.
  - exfalso. apply H. rewrite fdiv_nan_r. reflexivity.
Qed.

Lemma fadd_value_inv (a b : double) :
  value (fadd a b) <> None -> value a <> None /\ value b <> None.
Proof.
  destruct a, b; cbn; intros H; split; try discriminate; try exact H;
    exfalso; apply H; reflexivity.
Qed.

Lemma log_value_inv (a : double) :
  value (std.log a) <> None -> exists x : R, value a = Some x /\ 0 < x.
Proof.
  destruct a as [x | | | |]; cbn; intros H; try (exfalso; apply H; reflexivity).
  destruct (Rlt_dec 0 x) as [Hx | _]; [exists x; split; [reflexivity | exact Hx] |].
  exfalso. apply H. destruct (Req_dec_T x 0); reflexivity.
Qed.

Lemma fdiv_finite_value_inv (x y v : R) :
  value (fdiv x y) = Some v -> y <> 0 /\ v = x / y.
Proof.
  intros H. destruct (Req_dec_T y 0) as [-> | Hy].
  - rewrite fdiv_by_zero in H by reflexivity. discriminate.
  - split; [exact Hy |].
    rewrite (value_fdiv x y x y) in H by (try reflexivity; exact Hy).
    injection H as <-. reflexivity.
Qed.

Lemma divisor_value_inv (sigma T y : R) :
  value (fmul sigma (std.sqrt T)) = Some y -> y <> 0 -> sigma <> 0 /\ 0 < T.
Proof.
  intros H Hy. destruct (Rle_dec 0 T) as [HT | HT].
  - rewrite divisor_value in H by exact HT. injection H as <-.
    split; [intros ->; apply Hy; apply Rmult_0_l |].
    destruct HT as [HT | <-]; [exact HT |].
    exfalso. apply Hy. rewrite sqrt_0. apply Rmult_0_r.
  - exfalso. revert H. cbn [std.sqrt].
    destruct (Rle_dec 0 T); [contradiction |]. cbn. discriminate.
Qed.

(** [d1] is a finite number exactly on [in_domain]. *)
Lemma d1_value_iff (S K r sigma T : R) :
  value (d1 S K r sigma T) <> None <-> in_domain S K sigma T.
Proof.
  split.
  - unfold d1. intros H.
    assert (Hb : forall c : double,
               fmul sigma (std.sqrt T) = c -> c <> PInf /\ c <> NInf).
    { intros c <-. destruct (Rle_dec 0 T) as [HT | HT].
      - pose proof (divisor_value sigma T HT) as E.
        split; intros E'; rewrite E' in E; discriminate.
      - cbn [std.sqrt]. destruct (Rle_dec 0 T); [contradiction |].
        cbn. split; discriminate. }
    destruct (Hb _ eq_refl) as [Hp Hn].
    destruct (fdiv_value_inv _ _ H Hp Hn) as (Hnum & y & Ey & Hy).
    destruct (divisor_value_inv _ _ _ Ey Hy) as [Hs HT].
    apply fadd_value_inv in Hnum. destruct Hnum as [Hlog _].
    apply log_value_inv in Hlog. destruct Hlog as (x & Ex & Hx).
    apply fdiv_finite_value_inv in Ex. destruct Ex as [HK ->].
    unfold in_domain. repeat split; assumption.
  - intros Hdom. rewrite (d1_value _ _ _ _ _ Hdom). discriminate.
Qed.








Example d1_at_expiry_in_the_money : d1 110 100 0.05 0.2 0 = PInf.
Proof.
  unfold d1.
  rewrite fdiv_finite_nonzero, log_finite, sqrt_finite by lra.
  rewrite sqrt_0.
  rewrite (fmul_finite 0.5 0.2), (fmul_finite (0.5 * 0.2) 0.2) by (intros; lra).
  rewrite fadd_finite, (fmul_finite _ 0) by (intros; lra).
  rewrite fadd_finite, (fmul_finite 0.2 0) by (intros; lra).
  assert (Hln : 0 < ln (110 / 100)).
  { rewrite <- ln_1. apply ln_increasing; lra. }
  unfold fdiv. cbn [value].
  destruct (Req_dec_T (0.2 * 0) 0) as [_ | N]; [| lra].
  destruct (Req_dec_T _ 0) as [E | _]; [lra |].
  rewrite !signbit_nonneg by lra. reflexivity.
Qed.

(** An infinity plus a finite number. *)
Lemma fadd_infinity_l (b : double) (y : R) :
  value b = Some y -> fadd PInf b = PInf /\ fadd NInf b = NInf.
Proof.
  destruct b; cbn; intros E; try discriminate; split; reflexivity.
Qed.

(** [norm_cdf] and [norm_pdf] at the infinities. *)
Example norm_cdf_at_infinity : norm_cdf PInf = Finite 1 /\ norm_cdf NInf = Finite 0.
Proof.
  unfold norm_cdf. rewrite sqrt_finite by lra. cbn [fneg].
  assert (Hq : 0 < sqrt 2.0) by (apply sqrt_lt_R0; lra).
  assert (Ep : fdiv PInf (sqrt 2.0) = PInf).
  { unfold fdiv. cbn [value]. rewrite signbit_nonneg by lra. reflexivity. }
  assert (En : fdiv NInf (sqrt 2.0) = NInf).
  { unfold fdiv. cbn [value]. rewrite signbit_nonneg by lra. reflexivity. }
  rewrite Ep, En. cbn [std.erfc].
  rewrite !fdiv_finite by (intros; lra). split; f_equal; lra.
Qed.

Example norm_pdf_at_infinity : norm_pdf PInf = Finite 0 /\ norm_pdf NInf = Finite 0.
Proof.
  unfold norm_pdf, INV_SQRT_2PI.
  assert (Ep : fmul (-0.5) PInf = NInf).
  { unfold fmul. cbn [value]. destruct (Req_dec_T (-0.5) 0); [lra |].
    cbn. destruct (Rlt_dec (-0.5) 0); [reflexivity | lra]. }
  assert (En : fmul (-0.5) NInf = PInf).
  { unfold fmul. cbn [value]. destruct (Req_dec_T (-0.5) 0); [lra |].
    cbn. destruct (Rlt_dec (-0.5) 0); [reflexivity | lra]. }
  rewrite Ep, En.
  change (fmul NInf PInf) with NInf. change (fmul PInf NInf) with NInf.
  change (std.exp NInf) with (Finite 0).
  rewrite fmul_finite by (intros; lra). split; f_equal; lra.
Qed.

(** The price of a call at expiry, in the money: the intrinsic value. *)
Example price_at_expiry_in_the_money : price_option 110 100 0.05 0.2 0 CALL = Finite 10.
Proof.
  unfold price_option. rewrite d1_at_expiry_in_the_money, discount_finite.
  assert (E2 : d2 PInf 0.2 0 = PInf).
  { unfold d2, fsub. rewrite sqrt_finite, sqrt_0 by lra.
    rewrite fmul_finite by (intros; lra).
    apply (fadd_infinity_l _ (- (0.2 * 0))). apply value_fneg. reflexivity. }
  rewrite E2. destruct norm_cdf_at_infinity as [-> _].
  rewrite (fmul_finite 110 1), (fmul_finite 100) by (intros; lra).
  pose proof (exp_pos (- (0.05 * 0))) as He.
  rewrite fmul_finite by (intros; lra).
  rewrite fsub_finite. f_equal.
  replace (- (0.05 * 0)) with 0 by lra. rewrite exp_0. lra.
Qed.

(** The price of a call on a spot of zero: [d1] is minus infinity and the
    price is zero. *)
Example price_at_zero_spot : price_option 0 100 0.05 0.2 1 CALL = Finite 0.
Proof.
  assert (E1 : d1 0 100 0.05 0.2 1 = NInf).
  { unfold d1.
    rewrite (fdiv_finite 0 100) by (intros; lra).
    replace (0 / 100) with 0 by lra.
    assert (El : std.log 0 = NInf).
    { cbn. destruct (Rlt_dec 0 0); [lra |]. destruct (Req_dec_T 0 0); [reflexivity | lra]. }
    rewrite El, sqrt_finite, sqrt_1 by lra.
    rewrite (fmul_finite 0.5 0.2), (fmul_finite (0.5 * 0.2) 0.2) by (intros; lra).
    rewrite fadd_finite, (fmul_finite _ 1) by (intros; lra).
    rewrite (fmul_finite 0.2 1) by (intros; lra).
    cbn [fadd]. unfold fdiv. cbn [value signbit].
    destruct (Rlt_dec (0.2 * 1) 0); [lra | reflexivity]. }
  assert (E2 : d2 NInf 0.2 1 = NInf).
  { unfold d2, fsub. rewrite sqrt_finite, sqrt_1 by lra.
    rewrite fmul_finite by (intros; lra).
    apply (fadd_infinity_l _ (- (0.2 * 1))). apply value_fneg. reflexivity. }
  unfold price_option. rewrite E1, E2, discount_finite.
  destruct norm_cdf_at_infinity as [_ ->].
  pose proof (exp_pos (- (0.05 * 1))) as He.
  rewrite (fmul_finite 0 0), (fmul_finite 100), fmul_finite by (intros; lra).
  rewrite fsub_finite. f_equal. lra.
Qed.

(** The Greeks of that call at expiry: delta is 1, vega is 0, and gamma
    is 0/0. *)
Example greeks_at_expiry_in_the_money :
  let g := compute_greeks 110 100 0.05 0.2 0 CALL in
  delta g = Finite 1 /\ vega g = Finite 0 /\ gamma g = NaN.
Proof.
  cbv zeta. unfold compute_greeks. rewrite d1_at_expiry_in_the_money.
  unfold set_delta, set_gamma, set_vega, set_theta. cbn [delta gamma vega theta].
  destruct norm_cdf_at_infinity as [-> _]. destruct norm_pdf_at_infinity as [-> _].
  rewrite sqrt_finite, sqrt_0 by lra.
  split; [reflexivity |]. split.
  - rewrite (fmul_finite 110 0), fmul_finite, fdiv_finite by (intros; lra).
    f_equal. lra.
  - rewrite (fmul_finite 110 0.2), fmul_finite by (intros; lra).
    unfold fdiv. cbn [value].
    destruct (Req_dec_T (110 * 0.2 * 0) 0) as [_ | N]; [| lra].
    destruct (Req_dec_T 0 0) as [_ | N]; [reflexivity | lra].
Qed.

(** ** The batch and the vector of prices *)

Lemma spec_N'_abs (x y : R) : Rabs x = Rabs y -> spec_N' x = spec_N' y.
Proof.
  intros H. unfold spec_N'.
  assert (E : x * x = y * y).
  { change (Rsqr x = Rsqr y). rewrite (Rsqr_abs x), (Rsqr_abs y), H. reflexivity. }
  rewrite E. reflexivity.
Qed.

Lemma price_batch_map (cs : list Contract) : price_batch cs = map price_contract cs.
Proof. unfold price_batch. rewrite price_batch_run_spec. reflexivity. Qed.

Lemma price_contract_valid (c : Contract) :
  contract_valid c -> exists x : R, price_contract c = Finite x /\ 0 < x.
Proof.
  intros (S & K & r & sigma & T & HS & HK & Hr & Hs & HT & Hv).
  unfold price_contract. rewrite HS, HK, Hr, Hs, HT.
  exists (spec_price S K r sigma T (Contract.option_type c)).
  rewrite price_option_finite by (apply valid_in_domain; exact Hv).
  split; [reflexivity | apply spec_price_pos; exact Hv].
Qed.

(** While the size stays within the capacity the loop reallocates nothing. *)
Lemma range_for_vector_spec (grow : nat -> nat) (cs : list Contract) (n : nat) :
  forall (i : nat) (v : vector),
    (i + n <= length cs)%nat ->
    (length (elements v) + n <= capacity v)%nat ->
    range_for_vector grow n i cs v =
    mkVector (elements v ++ map price_contract (firstn n (skipn i cs)))
      (capacity v) (reallocations v).
Proof.
  induction n as [| n IH]; intros i v Hlen Hcap.
  - simpl. rewrite app_nil_r. destruct v; reflexivity.
  - cbn [range_for_vector].
    destruct (nth_error cs i) as [c |] eqn:Hc.
    + unfold vector_push_back.
      assert (Hlt : Nat.ltb (length (elements v)) (capacity v) = true)
        by (apply Nat.ltb_lt; lia).
      rewrite Hlt. rewrite IH.
      * cbn [elements capacity reallocations].
        rewrite (skipn_nth_error _ _ _ Hc). cbn [firstn map].
        rewrite <- app_assoc. replace (i + 1)%nat with (S i) by lia. reflexivity.
      * lia.
      * cbn [elements capacity]. rewrite length_app. simpl. lia.
    + apply nth_error_None in Hc. lia.
Qed.

(** A [push_back] on a full vector does reallocate. *)
Example vector_push_back_full (grow : nat -> nat) (x y : double) :
  vector_push_back grow (mkVector [x] 1 0) y = mkVector [x; y] (grow 1%nat) 1.
Proof. reflexivity. Qed.

(* ================================================================== *)
(** * Part III: the claims *)
(* ================================================================== *)

(** C1.  For every finite sequence of contracts, the empty one included,
    [price_batch] returns a sequence of the same length in the same order:
    the output at index [i] is [price_option] applied to the fields of the
    contract at index [i], so it depends on that contract only, and the
    empty input gives the empty output. *)
Theorem C1_price_batch_pointwise (cs : list Contract) :
  length (price_batch cs) = length cs /\
  (forall i : nat,
      nth_error (price_batch cs) i =
      option_map
        (fun c => price_option (Contract.S c) (Contract.K c) (Contract.r c)
                    (Contract.sigma c) (Contract.T c) (Contract.option_type c))
        (nth_error cs i)) /\
  (forall (cs' : list Contract) (i : nat),
      nth_error cs i = nth_error cs' i ->
      nth_error (price_batch cs) i = nth_error (price_batch cs') i) /\
  price_batch [] = [].
Proof.
  unfold price_batch. split; [| split; [| split]].
  - rewrite price_batch_run_spec. apply length_map.
  - intros i. rewrite price_batch_run_spec. apply nth_error_map.
  - intros cs' i H. rewrite !price_batch_run_spec. cbn [prices].
    rewrite !nth_error_map, H. reflexivity.
  - reflexivity.
Qed.




(** C3.  For S > 0, K > 0, sigma > 0, T > 0 and any rate r, [price_option]
    returns S N(d1) - K e^(-rT) N(d2) for a call and
    K e^(-rT) N(-d2) - S N(-d1) for a put, where
    d1 = (ln(S/K) + (r + sigma^2/2) T) / (sigma sqrt T), d2 = d1 - sigma sqrt T,
    and N(x) = erfc(-x / sqrt 2) / 2, a primitive of the standard normal
    density with N(0) = 1/2. *)
Theorem C3_price_option_closed_form (S K r sigma T : R) (type : OptionType) :
  0 < S -> 0 < K -> 0 < sigma -> 0 < T ->
  let N := fun x : R => erfc (- x / sqrt 2) / 2 in
  let d1 := (ln (S / K) + (r + sigma ^ 2 / 2) * T) / (sigma * sqrt T) in
  let d2 := d1 - sigma * sqrt T in
  price_option S K r sigma T type =
  Finite (match type with
          | CALL => S * N d1 - K * exp (- (r * T)) * N d2
          | PUT => K * exp (- (r * T)) * N (- d2) - S * N (- d1)
          end) /\
  N 0 = 1 / 2 /\
  (forall x : R, derivable_pt_lim N x (/ sqrt (2 * PI) * exp (- (x * x) / 2))).
Proof.
  intros HS HK Hs HT N d1 d2. split; [| split].
  - rewrite price_option_finite by (apply valid_in_domain; repeat split; assumption). reflexivity.
  - apply spec_N_at_0.
  - apply spec_N_density.
Qed.

Lemma C3_witness :
  (0 < 100 /\ 0 < 105 /\ 0 < 0.2 /\ 0 < 0.5) /\
  price_option 100 105 0.05 0.2 0.5 CALL =
  Finite (100 * spec_N (spec_d1 100 105 0.05 0.2 0.5)
          - 105 * exp (- (0.05 * 0.5)) * spec_N (spec_d2 100 105 0.05 0.2 0.5)).
Proof.
  split; [lra |].
  apply (C3_price_option_closed_form 100 105 0.05 0.2 0.5 CALL); lra.
Defined.

(** C4.  Put-call parity: for S > 0, K > 0, sigma > 0, T > 0 and any rate
    r, the call price minus the put price is S - K e^(-rT). *)
Theorem C4_put_call_parity (S K r sigma T : R) :
  0 < S -> 0 < K -> 0 < sigma -> 0 < T ->
  fsub (price_option S K r sigma T CALL) (price_option S K r sigma T PUT) =
  Finite (S - K * exp (- (r * T))).
Proof.
  intros HS HK Hs HT.
  rewrite !price_option_finite by (apply valid_in_domain; repeat split; assumption).
  rewrite fsub_finite. f_equal. unfold spec_price.
  rewrite !spec_N_reflect. ring.
Qed.

Lemma C4_witness :
  (0 < 100 /\ 0 < 105 /\ 0 < 0.2 /\ 0 < 0.5) /\
  fsub (price_option 100 105 0.05 0.2 0.5 CALL) (price_option 100 105 0.05 0.2 0.5 PUT) =
  Finite (100 - 105 * exp (- (0.05 * 0.5))).
Proof.
  split; [lra |].
  apply (C4_put_call_parity 100 105 0.05 0.2 0.5); lra.
Defined.

(** C5.  For S > 0, K > 0, sigma > 0, T > 0 and any rate r, [compute_greeks]
    returns delta = N(d1) for a call and N(d1) - 1 for a put,
    gamma = N'(d1) / (S sigma sqrt T), vega = S N'(d1) sqrt T / 100 (per
    percentage point of volatility), and, per calendar day,
    theta = (-(S N'(d1) sigma) / (2 sqrt T) - r K e^(-rT) N(d2)) / 365 for a
    call, (-(S N'(d1) sigma) / (2 sqrt T) + r K e^(-rT) N(-d2)) / 365 for a
    put.  N' is the density as the kernel computes it, with the literal
    0.3989422804014327 for 1 / sqrt (2 pi): it is the standard normal
    density to sixteen places. *)
Theorem C5_compute_greeks_closed_form (S K r sigma T : R) (type : OptionType) :
  0 < S -> 0 < K -> 0 < sigma -> 0 < T ->
  let N := fun x : R => erfc (- x / sqrt 2) / 2 in
  let N' := fun x : R => 0.3989422804014327 * exp (- (x * x) / 2) in
  let d1 := (ln (S / K) + (r + sigma ^ 2 / 2) * T) / (sigma * sqrt T) in
  let d2 := d1 - sigma * sqrt T in
  let g := compute_greeks S K r sigma T type in
  delta g = Finite (match type with CALL => N d1 | PUT => N d1 - 1 end) /\
  gamma g = Finite (N' d1 / (S * sigma * sqrt T)) /\
  vega g = Finite (S * N' d1 * sqrt T / 100) /\
  theta g =
  Finite (match type with
          | CALL => (- (S * N' d1 * sigma) / (2 * sqrt T)
                     - r * K * exp (- (r * T)) * N d2) / 365
          | PUT => (- (S * N' d1 * sigma) / (2 * sqrt T)
                    + r * K * exp (- (r * T)) * N (- d2)) / 365
          end) /\
  (forall x : R,
      Rabs (N' x - / sqrt (2 * PI) * exp (- (x * x) / 2)) < 1 / 10 ^ 16).
Proof.
  intros HS HK Hs HT N N' d1 d2 g. unfold g.
  rewrite compute_greeks_finite by (apply valid_in_domain; repeat split; assumption).
  cbn [delta gamma vega theta].
  split; [| split; [| split; [| split]]]; try (destruct type; reflexivity).
  apply spec_N'_accurate.
Qed.

Lemma C5_witness :
  (0 < 100 /\ 0 < 105 /\ 0 < 0.2 /\ 0 < 0.5) /\
  delta (compute_greeks 100 105 0.05 0.2 0.5 CALL) =
  Finite (spec_N (spec_d1 100 105 0.05 0.2 0.5)).
Proof.
  split; [lra |].
  apply (C5_compute_greeks_closed_form 100 105 0.05 0.2 0.5 CALL); lra.
Defined.

(** C6.  For one parameter tuple with S > 0, K > 0, sigma > 0, T > 0, the
    gamma that [compute_greeks] returns for a call is the gamma it returns
    for a put, and likewise for vega; both are finite numbers. *)
Theorem C6_gamma_vega_symmetry (S K r sigma T : R) :
  0 < S -> 0 < K -> 0 < sigma -> 0 < T ->
  exists gam veg : R,
    gamma (compute_greeks S K r sigma T CALL) = Finite gam /\
    gamma (compute_greeks S K r sigma T PUT) = Finite gam /\
    vega (compute_greeks S K r sigma T CALL) = Finite veg /\
    vega (compute_greeks S K r sigma T PUT) = Finite veg.
Proof.
  intros HS HK Hs HT.
  exists (spec_gamma S K r sigma T), (spec_vega S K r sigma T).
  rewrite !compute_greeks_finite by (apply valid_in_domain; repeat split; assumption).
  repeat split; reflexivity.
Qed.

Lemma C6_witness :
  (0 < 100 /\ 0 < 100 /\ 0 < 0.2 /\ 0 < 1) /\
  exists gam veg : R,
    gamma (compute_greeks 100 100 0.05 0.2 1 CALL) = Finite gam /\
    gamma (compute_greeks 100 100 0.05 0.2 1 PUT) = Finite gam /\
    vega (compute_greeks 100 100 0.05 0.2 1 CALL) = Finite veg /\
    vega (compute_greeks 100 100 0.05 0.2 1 PUT) = Finite veg.
Proof.
  split; [lra |].
  apply (C6_gamma_vega_symmetry 100 100 0.05 0.2 1); lra.
Defined.

(** C7.  For S > 0, K > 0, sigma > 0, T > 0 and any rate r, the Greeks of
    [compute_greeks] satisfy: delta lies in [0, 1] for a call and in
    [-1, 0] for a put; gamma >= 0 and vega >= 0 for both option types. *)
Theorem C7_greeks_bounds (S K r sigma T : R) :
  0 < S -> 0 < K -> 0 < sigma -> 0 < T ->
  (exists dc : R, delta (compute_greeks S K r sigma T CALL) = Finite dc /\ 0 <= dc <= 1) /\
  (exists dp : R, delta (compute_greeks S K r sigma T PUT) = Finite dp /\ -1 <= dp <= 0) /\
  (forall type : OptionType,
      exists gam veg : R,
        gamma (compute_greeks S K r sigma T type) = Finite gam /\ 0 <= gam /\
        vega (compute_greeks S K r sigma T type) = Finite veg /\ 0 <= veg).
Proof.
  intros HS HK Hs HT.
  pose proof (spec_N_range (spec_d1 S K r sigma T)) as HN.
  pose proof (spec_N'_pos (spec_d1 S K r sigma T)) as HN'.
  pose proof (sqrt_lt_R0 T HT) as HsqT.
  split; [| split].
  - exists (spec_delta S K r sigma T CALL).
    rewrite compute_greeks_finite by (apply valid_in_domain; repeat split; assumption).
    split; [reflexivity | exact HN].
  - exists (spec_delta S K r sigma T PUT).
    rewrite compute_greeks_finite by (apply valid_in_domain; repeat split; assumption).
    split; [reflexivity | unfold spec_delta; lra].
  - intros type. exists (spec_gamma S K r sigma T), (spec_vega S K r sigma T).
    rewrite compute_greeks_finite by (apply valid_in_domain; repeat split; assumption).
    cbn [gamma vega]. repeat split.
    + left. unfold spec_gamma. apply Rdiv_lt_0_compat; [exact HN' |].
      repeat apply Rmult_lt_0_compat; assumption.
    + left. unfold spec_vega. apply Rdiv_lt_0_compat; [| lra].
      apply Rmult_lt_0_compat; [apply Rmult_lt_0_compat |]; assumption.
Qed.

Lemma C7_witness :
  (0 < 200 /\ 0 < 100 /\ 0 < 0.2 /\ 0 < 1) /\
  exists dc : R,
    delta (compute_greeks 200 100 0.05 0.2 1 CALL) = Finite dc /\ 0 <= dc <= 1.
Proof.
  split; [lra |].
  apply (C7_greeks_bounds 200 100 0.05 0.2 1); lra.
Defined.

(** C9.  For S > 0, K > 0, sigma > 0, T > 0 and any rate r, the delta of
    the call minus the delta of the put is exactly 1: both branches take
    the same N(d1) and the put branch subtracts 1 from it. *)
Theorem C9_delta_call_minus_put (S K r sigma T : R) :
  0 < S -> 0 < K -> 0 < sigma -> 0 < T ->
  fsub (delta (compute_greeks S K r sigma T CALL))
       (delta (compute_greeks S K r sigma T PUT)) = Finite 1.
Proof.
  intros HS HK Hs HT.
  rewrite !compute_greeks_finite by (apply valid_in_domain; repeat split; assumption).
  cbn [delta]. rewrite fsub_finite. f_equal. unfold spec_delta. ring.
Qed.

Lemma C9_witness :
  (0 < 100 /\ 0 < 105 /\ 0 < 0.2 /\ 0 < 0.5) /\
  fsub (delta (compute_greeks 100 105 0.05 0.2 0.5 CALL))
       (delta (compute_greeks 100 105 0.05 0.2 0.5 PUT)) = Finite 1.
Proof.
  split; [lra |].
  apply (C9_delta_call_minus_put 100 105 0.05 0.2 0.5); lra.
Defined.

(** C10.  [price_batch] never modifies its input: when it returns, the
    vector of contracts is the one it was given, element by element and
    field by field, and the only other thing it has built is the vector of
    prices that it returns; no iteration of its loop, from any state,
    writes to the contracts. *)
Theorem C10_price_batch_frame (cs : list Contract) :
  contracts (price_batch_run cs) = cs /\
  price_batch_run cs = mkState cs (price_batch cs) /\
  (forall (n i : nat) (st : batch_state), contracts (range_for n i st) = contracts st).
Proof.
  unfold price_batch. rewrite price_batch_run_spec.
  split; [reflexivity |]. split; [reflexivity |].
  intros n i st. apply range_for_frame.
Qed.

(* ================================================================== *)
(** * Part IV: further properties of the code *)
(* ================================================================== *)

(** X1.  [norm_cdf] is non-decreasing and takes its values between 0
    and 1. *)
Theorem X1_norm_cdf_monotone (x y : R) :
  x <= y ->
  exists a b : R,
    norm_cdf x = Finite a /\ norm_cdf y = Finite b /\ 0 <= a /\ a <= b /\ b <= 1.
Proof.
  intros Hxy. exists (spec_N x), (spec_N y). rewrite !norm_cdf_finite.
  pose proof (spec_N_range x) as [H0 _].
  pose proof (spec_N_range y) as [_ H1].
  pose proof (spec_N_incr x y Hxy).
  repeat split; assumption.
Qed.

Lemma X1_witness :
  1 <= 2 /\
  exists a b : R,
    norm_cdf 1 = Finite a /\ norm_cdf 2 = Finite b /\ 0 <= a /\ a <= b /\ b <= 1.
Proof. split; [lra |]. apply (X1_norm_cdf_monotone 1 2). lra. Defined.

(** X2.  [norm_cdf] tends to 0 at minus infinity and to 1 at plus infinity. *)
Theorem X2_norm_cdf_limits (eps : R) :
  0 < eps ->
  exists M : R, forall x : R,
    (x <= - M -> exists a : R, norm_cdf x = Finite a /\ a < eps) /\
    (M <= x -> exists a : R, norm_cdf x = Finite a /\ 1 - eps < a).
Proof.
  intros Heps. destruct (spec_N_limits eps Heps) as [M HM].
  exists M. intros x. destruct (HM x) as [Hlo Hhi].
  split; intros Hx; exists (spec_N x); rewrite norm_cdf_finite; split; auto.
Qed.

Lemma X2_witness :
  0 < 0.01 /\
  exists M : R, forall x : R,
    (x <= - M -> exists a : R, norm_cdf x = Finite a /\ a < 0.01) /\
    (M <= x -> exists a : R, norm_cdf x = Finite a /\ 1 - 0.01 < a).
Proof. split; [lra |]. apply (X2_norm_cdf_limits 0.01). lra. Defined.



(** X4.  [norm_pdf] is non-negative, even, at most [INV_SQRT_2PI], which
    it takes at 0, and does not increase as the argument moves away from
    0. *)
Theorem X4_norm_pdf_shape (x y : R) :
  exists p q : R,
    norm_pdf x = Finite p /\ norm_pdf y = Finite q /\
    0 <= p <= 0.3989422804014327 /\
    norm_pdf (- x) = norm_pdf x /\
    norm_pdf 0 = INV_SQRT_2PI /\
    (Rabs x <= Rabs y -> q <= p).
Proof.
  exists (spec_N' x), (spec_N' y).
  rewrite (norm_pdf_value (fneg x) (- x)) by (apply value_fneg; reflexivity).
  rewrite !norm_pdf_finite.
  split; [reflexivity |]. split; [reflexivity |].
  split; [split; [left; apply spec_N'_pos | apply spec_N'_le_peak] |].
  split; [rewrite spec_N'_even; reflexivity |].
  split.
  - unfold INV_SQRT_2PI, spec_N'. f_equal.
    replace (- (0 * 0) / 2) with 0 by field. rewrite exp_0. ring.
  - intros [Hlt | Heq].
    + left. apply spec_N'_decr. exact Hlt.
    + right. apply spec_N'_abs. symmetry. exact Heq.
Qed.

(** X5.  On valid inputs S N'(d1) = K e^(-rT) N'(d2): the vega and theta
    terms are the same whether written with d1 or with d2. *)
Theorem X5_pdf_identity (S K r sigma T : R) :
  0 < S -> 0 < K -> 0 < sigma -> 0 < T ->
  exists m : R,
    0 <= m /\
    fmul S (norm_pdf (d1 S K r sigma T)) = Finite m /\
    fmul (fmul K (std.exp (fmul (fneg r) T)))
      (norm_pdf (d2 (d1 S K r sigma T) sigma T)) = Finite m.
Proof.
  intros HS HK Hs HT.
  assert (Hv : valid_input S K sigma T) by (repeat split; assumption).
  pose proof (valid_in_domain _ _ _ _ Hv) as Hdom.
  exists (S * spec_N' (spec_d1 S K r sigma T)).
  rewrite (d2_finite _ _ _ _ _ Hv), (d1_finite _ _ _ _ _ Hv), !norm_pdf_finite.
  rewrite discount_finite.
  pose proof (spec_N'_pos (spec_d1 S K r sigma T)) as H1.
  pose proof (spec_N'_pos (spec_d2 S K r sigma T)) as H2.
  pose proof (exp_pos (- (r * T))) as He.
  assert (HKe : 0 < K * exp (- (r * T))) by (apply Rmult_lt_0_compat; assumption).
  rewrite (fmul_finite S), (fmul_finite K), fmul_finite by (intros; lra).
  split; [left; apply Rmult_lt_0_compat; assumption |].
  split; [reflexivity |]. f_equal.
  symmetry. apply (spec_N'_identity S K r sigma T Hdom).
Qed.

Lemma X5_witness :
  (0 < 100 /\ 0 < 105 /\ 0 < 0.2 /\ 0 < 0.5) /\
  exists m : R,
    0 <= m /\
    fmul 100 (norm_pdf (d1 100 105 0.05 0.2 0.5)) = Finite m /\
    fmul (fmul 105 (std.exp (fmul (fneg 0.05) 0.5)))
      (norm_pdf (d2 (d1 100 105 0.05 0.2 0.5) 0.2 0.5)) = Finite m.
Proof. split; [lra |]. apply (X5_pdf_identity 100 105 0.05 0.2 0.5); lra. Defined.





(** X9.  On valid inputs the delta of [compute_greeks] is the derivative of
    the price of [price_option] in the spot, for both option types. *)
Theorem X9_delta_is_spot_derivative (S K r sigma T : R) (type : OptionType) :
  0 < S -> 0 < K -> 0 < sigma -> 0 < T ->
  exists (price : R -> R) (dl : R),
    (forall s : R, 0 < s -> price_option s K r sigma T type = Finite (price s)) /\
    delta (compute_greeks S K r sigma T type) = Finite dl /\
    derivable_pt_lim price S dl.
Proof.
  intros HS HK Hs HT.
  assert (Hdom : in_domain S K sigma T) by (apply valid_in_domain; repeat split; assumption).
  exists (fun s => spec_price s K r sigma T type), (spec_delta S K r sigma T type).
  split; [| split].
  - intros s Hs0. apply price_option_finite. apply valid_in_domain. repeat split; assumption.
  - rewrite compute_greeks_finite by exact Hdom. reflexivity.
  - destruct type; unfold spec_delta;
      [apply spec_price_call_derivable_S | apply spec_price_put_derivable_S]; exact Hdom.
Qed.

Lemma X9_witness :
  (0 < 100 /\ 0 < 105 /\ 0 < 0.2 /\ 0 < 0.5) /\
  exists (price : R -> R) (dl : R),
    (forall s : R, 0 < s -> price_option s 105 0.05 0.2 0.5 CALL = Finite (price s)) /\
    delta (compute_greeks 100 105 0.05 0.2 0.5 CALL) = Finite dl /\
    derivable_pt_lim price 100 dl.
Proof. split; [lra |]. apply (X9_delta_is_spot_derivative 100 105 0.05 0.2 0.5 CALL); lra. Defined.





(** X12.  On valid inputs, 100 times the vega of [compute_greeks] is the
    derivative of the price of [price_option] in the volatility, up to the
    rounding of the literal [INV_SQRT_2PI]: the two differ by at most
    S sqrt(T) / 10^16. *)
Theorem X12_vega_is_volatility_derivative (S K r sigma T : R) (type : OptionType) :
  0 < S -> 0 < K -> 0 < sigma -> 0 < T ->
  exists (price : R -> R) (v D : R),
    (forall s : R, 0 < s -> price_option S K r s T type = Finite (price s)) /\
    vega (compute_greeks S K r sigma T type) = Finite v /\
    derivable_pt_lim price sigma D /\
    Rabs (100 * v - D) <= S * sqrt T / 10 ^ 16.
Proof.
  intros HS HK Hs HT.
  assert (Hdom : in_domain S K sigma T) by (apply valid_in_domain; repeat split; assumption).
  pose proof (sqrt_lt_R0 T HT) as HsT.
  exists (fun s => spec_price S K r s T type), (spec_vega S K r sigma T),
    (S * normal_density (spec_d1 S K r sigma T) * sqrt T).
  split; [| split; [| split]].
  - intros s Hs0. apply price_option_finite. apply valid_in_domain. repeat split; assumption.
  - rewrite compute_greeks_finite by exact Hdom. reflexivity.
  - destruct type;
      [apply spec_price_call_derivable_sigma | apply spec_price_put_derivable_sigma];
      exact Hdom.
  - unfold spec_vega.
    pose proof (spec_N'_error (spec_d1 S K r sigma T) (S * sqrt T)
                  ltac:(apply Rmult_le_pos; lra)) as He.
    replace (100 * (S * spec_N' (spec_d1 S K r sigma T) * sqrt T / 100)
             - S * normal_density (spec_d1 S K r sigma T) * sqrt T)
      with (S * sqrt T * spec_N' (spec_d1 S K r sigma T)
            - S * sqrt T * normal_density (spec_d1 S K r sigma T)) by field.
    unfold Rdiv in *. lra.
Qed.

Lemma X12_witness :
  (0 < 100 /\ 0 < 105 /\ 0 < 0.2 /\ 0 < 0.5) /\
  exists (price : R -> R) (v D : R),
    (forall s : R, 0 < s -> price_option 100 105 0.05 s 0.5 CALL = Finite (price s)) /\
    vega (compute_greeks 100 105 0.05 0.2 0.5 CALL) = Finite v /\
    derivable_pt_lim price 0.2 D /\
    Rabs (100 * v - D) <= 100 * sqrt 0.5 / 10 ^ 16.
Proof. split; [lra |]. apply (X12_vega_is_volatility_derivative 100 105 0.05 0.2 0.5 CALL); lra. Defined.

(** X13.  On valid inputs, 365 times the theta of [compute_greeks] is minus
    the derivative of the price of [price_option] in the time to expiry, up
    to the rounding of the literal [INV_SQRT_2PI]: the two differ by at
    most S sigma / (2 sqrt T) / 10^16. *)
Theorem X13_theta_is_time_decay (S K r sigma T : R) (type : OptionType) :
  0 < S -> 0 < K -> 0 < sigma -> 0 < T ->
  exists (price : R -> R) (th D : R),
    (forall t : R, 0 < t -> price_option S K r sigma t type = Finite (price t)) /\
    theta (compute_greeks S K r sigma T type) = Finite th /\
    derivable_pt_lim price T D /\
    Rabs (365 * th + D) <= S * sigma / (2 * sqrt T) / 10 ^ 16.
Proof.
  intros HS HK Hs HT.
  assert (Hdom : in_domain S K sigma T) by (apply valid_in_domain; repeat split; assumption).
  pose proof (sqrt_lt_R0 T HT) as HsT.
  set (d1 := spec_d1 S K r sigma T).
  assert (Hc : 0 <= S * sigma / (2 * sqrt T)).
  { left. apply Rdiv_lt_0_compat; [apply Rmult_lt_0_compat; assumption | lra]. }
  pose proof (spec_N'_error d1 _ Hc) as He.
  exists (fun t => spec_price S K r sigma t type), (spec_theta S K r sigma T type).
  destruct type.
  - exists (r * K * exp (- (r * T)) * spec_N (spec_d2 S K r sigma T)
            + S * normal_density d1 * sigma / (2 * sqrt T)).
    split; [| split; [| split]].
    + intros t Ht. apply price_option_finite. apply valid_in_domain. repeat split; assumption.
    + rewrite compute_greeks_finite by exact Hdom. reflexivity.
    + apply spec_price_call_derivable_T. exact Hdom.
    + unfold spec_theta. fold d1.
      replace (365 * ((- (S * spec_N' d1 * sigma) / (2 * sqrt T)
                       - r * K * exp (- (r * T)) * spec_N (spec_d2 S K r sigma T)) / 365)
               + (r * K * exp (- (r * T)) * spec_N (spec_d2 S K r sigma T)
                  + S * normal_density d1 * sigma / (2 * sqrt T)))
        with (- (S * sigma / (2 * sqrt T) * spec_N' d1
                 - S * sigma / (2 * sqrt T) * normal_density d1)) by (field; lra).
      rewrite Rabs_Ropp. unfold Rdiv in *. lra.
  - exists (- (r * K * exp (- (r * T)) * spec_N (- spec_d2 S K r sigma T))
            + S * normal_density d1 * sigma / (2 * sqrt T)).
    split; [| split; [| split]].
    + intros t Ht. apply price_option_finite. apply valid_in_domain. repeat split; assumption.
    + rewrite compute_greeks_finite by exact Hdom. reflexivity.
    + apply spec_price_put_derivable_T. exact Hdom.
    + unfold spec_theta. fold d1.
      replace (365 * ((- (S * spec_N' d1 * sigma) / (2 * sqrt T)
                       + r * K * exp (- (r * T)) * spec_N (- spec_d2 S K r sigma T)) / 365)
               + (- (r * K * exp (- (r * T)) * spec_N (- spec_d2 S K r sigma T))
                  + S * normal_density d1 * sigma / (2 * sqrt T)))
        with (- (S * sigma / (2 * sqrt T) * spec_N' d1
                 - S * sigma / (2 * sqrt T) * normal_density d1)) by (field; lra).
      rewrite Rabs_Ropp. unfold Rdiv in *. lra.
Qed.

Lemma X13_witness :
  (0 < 100 /\ 0 < 105 /\ 0 < 0.2 /\ 0 < 0.5) /\
  exists (price : R -> R) (th D : R),
    (forall t : R, 0 < t -> price_option 100 105 0.05 0.2 t CALL = Finite (price t)) /\
    theta (compute_greeks 100 105 0.05 0.2 0.5 CALL) = Finite th /\
    derivable_pt_lim price 0.5 D /\
    Rabs (365 * th + D) <= 100 * 0.2 / (2 * sqrt 0.5) / 10 ^ 16.
Proof. split; [lra |]. apply (X13_theta_is_time_decay 100 105 0.05 0.2 0.5 CALL); lra. Defined.

(** X14.  On valid inputs, the gamma of [compute_greeks] is the derivative
    of its delta in the spot, up to the rounding of the literal
    [INV_SQRT_2PI]: the two differ by at most
    1 / (S sigma sqrt T) / 10^16. *)
Theorem X14_gamma_is_delta_derivative (S K r sigma T : R) (type : OptionType) :
  0 < S -> 0 < K -> 0 < sigma -> 0 < T ->
  exists (dl : R -> R) (g D : R),
    (forall s : R, 0 < s -> delta (compute_greeks s K r sigma T type) = Finite (dl s)) /\
    gamma (compute_greeks S K r sigma T type) = Finite g /\
    derivable_pt_lim dl S D /\
    Rabs (g - D) <= 1 / (S * sigma * sqrt T) / 10 ^ 16.
Proof.
  intros HS HK Hs HT.
  assert (Hdom : in_domain S K sigma T) by (apply valid_in_domain; repeat split; assumption).
  pose proof (sqrt_lt_R0 T HT) as HsT.
  assert (Hden : 0 < S * sigma * sqrt T) by (repeat apply Rmult_lt_0_compat; assumption).
  exists (fun s => spec_delta s K r sigma T type), (spec_gamma S K r sigma T),
    (normal_density (spec_d1 S K r sigma T) / (S * sigma * sqrt T)).
  split; [| split; [| split]].
  - intros s Hs0. rewrite compute_greeks_finite; [reflexivity |].
    apply valid_in_domain. repeat split; assumption.
  - rewrite compute_greeks_finite by exact Hdom. reflexivity.
  - apply spec_delta_derivable_S. exact Hdom.
  - unfold spec_gamma.
    assert (Hc : 0 <= 1 / (S * sigma * sqrt T)).
    { left. apply Rdiv_lt_0_compat; lra. }
    pose proof (spec_N'_error (spec_d1 S K r sigma T) _ Hc) as He.
    replace (spec_N' (spec_d1 S K r sigma T) / (S * sigma * sqrt T)
             - normal_density (spec_d1 S K r sigma T) / (S * sigma * sqrt T))
      with (1 / (S * sigma * sqrt T) * spec_N' (spec_d1 S K r sigma T)
            - 1 / (S * sigma * sqrt T) * normal_density (spec_d1 S K r sigma T))
      by (field; lra).
    unfold Rdiv in *. lra.
Qed.

Lemma X14_witness :
  (0 < 100 /\ 0 < 105 /\ 0 < 0.2 /\ 0 < 0.5) /\
  exists (dl : R -> R) (g D : R),
    (forall s : R, 0 < s -> delta (compute_greeks s 105 0.05 0.2 0.5 PUT) = Finite (dl s)) /\
    gamma (compute_greeks 100 105 0.05 0.2 0.5 PUT) = Finite g /\
    derivable_pt_lim dl 100 D /\
    Rabs (g - D) <= 1 / (100 * 0.2 * sqrt 0.5) / 10 ^ 16.
Proof. split; [lra |]. apply (X14_gamma_is_delta_derivative 100 105 0.05 0.2 0.5 PUT); lra. Defined.

(** X15.  On valid inputs with a non-negative rate, the theta of a call is
    never positive: a call does not gain value as time passes. *)
Theorem X15_call_theta_nonpositive (S K r sigma T : R) :
  0 < S -> 0 < K -> 0 <= r -> 0 < sigma -> 0 < T ->
  exists th : R, theta (compute_greeks S K r sigma T CALL) = Finite th /\ th <= 0.
Proof.
  intros HS HK Hr Hs HT.
  assert (Hdom : in_domain S K sigma T) by (apply valid_in_domain; repeat split; assumption).
  exists (spec_theta S K r sigma T CALL).
  rewrite compute_greeks_finite by exact Hdom. split; [reflexivity |].
  unfold spec_theta.
  pose proof (sqrt_lt_R0 T HT) as HsT.
  pose proof (spec_N'_pos (spec_d1 S K r sigma T)) as HN'.
  pose proof (spec_N_range (spec_d2 S K r sigma T)) as [HN _].
  pose proof (exp_pos (- (r * T))) as He.
  assert (H1 : 0 < S * spec_N' (spec_d1 S K r sigma T) * sigma / (2 * sqrt T)).
  { apply Rdiv_lt_0_compat; [| lra].
    apply Rmult_lt_0_compat; [apply Rmult_lt_0_compat |]; assumption. }
  assert (H2 : 0 <= r * K * exp (- (r * T)) * spec_N (spec_d2 S K r sigma T)).
  { apply Rmult_le_pos; [apply Rmult_le_pos; [apply Rmult_le_pos |] |]; lra. }
  replace (- (S * spec_N' (spec_d1 S K r sigma T) * sigma) / (2 * sqrt T))
    with (- (S * spec_N' (spec_d1 S K r sigma T) * sigma / (2 * sqrt T))) by (field; lra).
  lra.
Qed.

Lemma X15_witness :
  (0 < 100 /\ 0 < 105 /\ 0 <= 0.05 /\ 0 < 0.2 /\ 0 < 0.5) /\
  exists th : R, theta (compute_greeks 100 105 0.05 0.2 0.5 CALL) = Finite th /\ th <= 0.
Proof. split; [lra |]. apply (X15_call_theta_nonpositive 100 105 0.05 0.2 0.5); lra. Defined.

(** X16.  On valid inputs the thetas of a call and of a put with the same
    parameters differ by the daily carry of the strike:
    theta(CALL) - theta(PUT) = - r K e^(-rT) / 365. *)
Theorem X16_theta_parity (S K r sigma T : R) :
  0 < S -> 0 < K -> 0 < sigma -> 0 < T ->
  fsub (theta (compute_greeks S K r sigma T CALL))
       (theta (compute_greeks S K r sigma T PUT)) =
  Finite (- (r * K * exp (- (r * T))) / 365).
Proof.
  intros HS HK Hs HT.
  rewrite !compute_greeks_finite by (apply valid_in_domain; repeat split; assumption).
  cbn [theta]. rewrite fsub_finite. f_equal. unfold spec_theta.
  rewrite spec_N_reflect. field.
  apply Rgt_not_eq. apply sqrt_lt_R0. exact HT.
Qed.

Lemma X16_witness :
  (0 < 100 /\ 0 < 105 /\ 0 < 0.2 /\ 0 < 0.5) /\
  fsub (theta (compute_greeks 100 105 0.05 0.2 0.5 CALL))
       (theta (compute_greeks 100 105 0.05 0.2 0.5 PUT)) =
  Finite (- (0.05 * 105 * exp (- (0.05 * 0.5))) / 365).
Proof. split; [lra |]. apply (X16_theta_parity 100 105 0.05 0.2 0.5); lra. Defined.

(** X17.  On valid inputs vega and gamma are tied by
    100 vega = S^2 sigma T gamma. *)
Theorem X17_vega_gamma_relation (S K r sigma T : R) (type : OptionType) :
  0 < S -> 0 < K -> 0 < sigma -> 0 < T ->
  exists v g : R,
    vega (compute_greeks S K r sigma T type) = Finite v /\
    gamma (compute_greeks S K r sigma T type) = Finite g /\
    100 * v = S * S * sigma * T * g.
Proof.
  intros HS HK Hs HT.
  exists (spec_vega S K r sigma T), (spec_gamma S K r sigma T).
  rewrite !compute_greeks_finite by (apply valid_in_domain; repeat split; assumption).
  split; [reflexivity |]. split; [reflexivity |].
  unfold spec_vega, spec_gamma.
  pose proof (sqrt_lt_R0 T HT) as HsT.
  pose proof (sqrt_sqrt T (Rlt_le _ _ HT)) as Hq.
  set (q := sqrt T) in *. rewrite <- Hq. field. repeat split; lra.
Qed.

Lemma X17_witness :
  (0 < 100 /\ 0 < 105 /\ 0 < 0.2 /\ 0 < 0.5) /\
  exists v g : R,
    vega (compute_greeks 100 105 0.05 0.2 0.5 CALL) = Finite v /\
    gamma (compute_greeks 100 105 0.05 0.2 0.5 CALL) = Finite g /\
    100 * v = 100 * 100 * 0.2 * 0.5 * g.
Proof. split; [lra |]. apply (X17_vega_gamma_relation 100 105 0.05 0.2 0.5 CALL); lra. Defined.

(** X19.  On valid inputs the price is homogeneous of degree one in spot
    and strike: scaling S and K by a factor c > 0 scales the price by c (a
    change of currency unit). *)
Theorem X19_price_homogeneous (c S K r sigma T : R) (type : OptionType) :
  0 < c -> 0 < S -> 0 < K -> 0 < sigma -> 0 < T ->
  price_option (fmul c S) (fmul c K) r sigma T type =
  fmul c (price_option S K r sigma T type).
Proof.
  intros Hc HS HK Hs HT.
  assert (Hdom : in_domain S K sigma T) by (apply valid_in_domain; repeat split; assumption).
  assert (Hc0 : c <> 0) by lra.
  rewrite (fmul_finite c S), (fmul_finite c K) by (intros; lra).
  rewrite !price_option_finite by (try apply in_domain_scale; assumption).
  rewrite fmul_finite by (intros; lra).
  f_equal. apply spec_price_scale; [exact Hc0 | lra].
Qed.

Lemma X19_witness :
  (0 < 2 /\ 0 < 100 /\ 0 < 105 /\ 0 < 0.2 /\ 0 < 0.5) /\
  price_option (fmul 2 100) (fmul 2 105) 0.05 0.2 0.5 CALL =
  fmul 2 (price_option 100 105 0.05 0.2 0.5 CALL).
Proof. split; [lra |]. apply (X19_price_homogeneous 2 100 105 0.05 0.2 0.5 CALL); lra. Defined.

(** X20.  Under the same scaling of spot and strike by c > 0, delta is
    unchanged, gamma is divided by c, vega and theta are multiplied by c. *)
Theorem X20_greeks_homogeneous (c S K r sigma T : R) (type : OptionType) :
  0 < c -> 0 < S -> 0 < K -> 0 < sigma -> 0 < T ->
  let g := compute_greeks S K r sigma T type in
  compute_greeks (fmul c S) (fmul c K) r sigma T type =
  mkGreeks (delta g) (fdiv (gamma g) c) (fmul c (vega g)) (fmul c (theta g)).
Proof.
  intros Hc HS HK Hs HT g. unfold g.
  rewrite (fmul_finite c S), (fmul_finite c K) by (intros; lra).
  assert (Hdom : in_domain S K sigma T) by (apply valid_in_domain; repeat split; assumption).
  assert (Hc0 : c <> 0) by lra.
  assert (HK0 : K <> 0) by lra.
  rewrite !compute_greeks_finite by (try apply in_domain_scale; assumption).
  cbn [delta gamma vega theta].
  rewrite fdiv_finite, !fmul_finite by (intros; lra).
  pose proof (sqrt_lt_R0 T HT) as HsT.
  unfold spec_delta, spec_gamma, spec_vega, spec_theta, spec_d2.
  rewrite !spec_d1_scale by assumption.
  f_equal; f_equal.
  - field. repeat split; lra.
  - field.
  - destruct type; field; lra.
Qed.

Lemma X20_witness :
  (0 < 2 /\ 0 < 100 /\ 0 < 105 /\ 0 < 0.2 /\ 0 < 0.5) /\
  compute_greeks (fmul 2 100) (fmul 2 105) 0.05 0.2 0.5 CALL =
  mkGreeks (delta (compute_greeks 100 105 0.05 0.2 0.5 CALL))
    (fdiv (gamma (compute_greeks 100 105 0.05 0.2 0.5 CALL)) 2)
    (fmul 2 (vega (compute_greeks 100 105 0.05 0.2 0.5 CALL)))
    (fmul 2 (theta (compute_greeks 100 105 0.05 0.2 0.5 CALL))).
Proof. split; [lra |]. apply (X20_greeks_homogeneous 2 100 105 0.05 0.2 0.5 CALL); lra. Defined.



(** X22.  With the other parameters fixed and valid, the delta of either
    option type does not decrease when the spot rises. *)
Theorem X22_delta_monotone_in_spot (K r sigma T S1 S2 : R) (type : OptionType) :
  0 < K -> 0 < sigma -> 0 < T -> 0 < S1 -> S1 <= S2 ->
  exists d1 d2 : R,
    delta (compute_greeks S1 K r sigma T type) = Finite d1 /\
    delta (compute_greeks S2 K r sigma T type) = Finite d2 /\
    d1 <= d2.
Proof.
  intros HK Hs HT HS1 H12.
  exists (spec_delta S1 K r sigma T type), (spec_delta S2 K r sigma T type).
  rewrite !compute_greeks_finite by (apply valid_in_domain; repeat split; lra).
  split; [reflexivity |]. split; [reflexivity |].
  destruct H12 as [H12 | <-]; [| right; reflexivity].
  left. apply spec_delta_incr_S; assumption.
Qed.

Lemma X22_witness :
  (0 < 105 /\ 0 < 0.2 /\ 0 < 0.5 /\ 0 < 90 /\ 90 <= 100) /\
  exists d1 d2 : R,
    delta (compute_greeks 90 105 0.05 0.2 0.5 CALL) = Finite d1 /\
    delta (compute_greeks 100 105 0.05 0.2 0.5 CALL) = Finite d2 /\
    d1 <= d2.
Proof. split; [lra |]. apply (X22_delta_monotone_in_spot 105 0.05 0.2 0.5 90 100 CALL); lra. Defined.

(** X23.  With the other parameters fixed and valid, the delta of a call
    tends to 0 as the spot falls (deep out of the money) and to 1 as the
    spot rises (deep in the money). *)
Theorem X23_call_delta_limits (K r sigma T eps : R) :
  0 < K -> 0 < sigma -> 0 < T -> 0 < eps ->
  exists lo hi : R,
    0 < lo /\ 0 < hi /\
    forall S : R, 0 < S ->
      exists dl : R,
        delta (compute_greeks S K r sigma T CALL) = Finite dl /\
        (S <= lo -> dl < eps) /\ (hi <= S -> 1 - eps < dl).
Proof.
  intros HK Hs HT Heps.
  destruct (spec_N_limits eps Heps) as [M HM].
  exists (K * exp (- M * (sigma * sqrt T) - (r + sigma ^ 2 / 2) * T)),
    (K * exp (M * (sigma * sqrt T) - (r + sigma ^ 2 / 2) * T)).
  split; [apply Rmult_lt_0_compat; [exact HK | apply exp_pos] |].
  split; [apply Rmult_lt_0_compat; [exact HK | apply exp_pos] |].
  intros S HS. exists (spec_delta S K r sigma T CALL).
  rewrite compute_greeks_finite by (apply valid_in_domain; repeat split; assumption).
  split; [reflexivity |]. unfold spec_delta.
  destruct (HM (spec_d1 S K r sigma T)) as [Hlo Hhi].
  split; intros HSb.
  - apply Hlo. apply spec_d1_small; assumption.
  - apply Hhi. apply spec_d1_large; assumption.
Qed.

Lemma X23_witness :
  (0 < 100 /\ 0 < 0.2 /\ 0 < 1 /\ 0 < 0.01) /\
  exists lo hi : R,
    0 < lo /\ 0 < hi /\
    forall S : R, 0 < S ->
      exists dl : R,
        delta (compute_greeks S 100 0.05 0.2 1 CALL) = Finite dl /\
        (S <= lo -> dl < 0.01) /\ (hi <= S -> 1 - 0.01 < dl).
Proof. split; [lra |]. apply (X23_call_delta_limits 100 0.05 0.2 1 0.01); lra. Defined.



(** X25.  Pricing a concatenation of two batches gives the concatenation of
    their prices, so a batch can be split into chunks and priced piecewise. *)
Theorem X25_price_batch_app (cs1 cs2 : list Contract) :
  price_batch (cs1 ++ cs2) = price_batch cs1 ++ price_batch cs2.
Proof. rewrite !price_batch_map. apply map_app. Qed.



(** X27.  Because [price_batch] reserves [contracts.size()] before its
    loop, no [push_back] of the loop reallocates: after any number [k] of
    iterations the vector holds the first [k] prices, its capacity is the
    number of contracts and its storage has been allocated at most once, by
    [reserve]; at the end its elements are the prices that [price_batch]
    returns. *)
Theorem X27_reserve_prevents_reallocation (grow : nat -> nat) (cs : list Contract) :
  elements (price_batch_vector grow cs) = price_batch cs /\
  capacity (price_batch_vector grow cs) = length cs /\
  reallocations (price_batch_vector grow cs) = Nat.min 1 (length cs) /\
  (forall k : nat,
      (k <= length cs)%nat ->
      range_for_vector grow k 0 cs (reserve (length cs) empty_vector) =
      mkVector (firstn k (price_batch cs)) (length cs) (Nat.min 1 (length cs))).
Proof.
  assert (Hres : reserve (length cs) empty_vector
                 = mkVector [] (length cs) (Nat.min 1 (length cs))).
  { unfold reserve, empty_vector. cbn [capacity elements reallocations].
    destruct (length cs) as [| m]; [reflexivity |].
    cbn [Nat.ltb Nat.leb]. rewrite Nat.min_l by lia. reflexivity. }
  assert (Hk : forall k : nat,
             (k <= length cs)%nat ->
             range_for_vector grow k 0 cs (reserve (length cs) empty_vector) =
             mkVector (firstn k (price_batch cs)) (length cs) (Nat.min 1 (length cs))).
  { intros k Hle. rewrite Hres.
    rewrite range_for_vector_spec by (simpl; lia).
    cbn [elements capacity reallocations app skipn].
    rewrite price_batch_map, firstn_map. reflexivity. }
  unfold price_batch_vector. rewrite (Hk (length cs) (Nat.le_refl _)).
  cbn [elements capacity reallocations].
  split; [| split; [reflexivity | split; [reflexivity | exact Hk]]].
  rewrite <- (length_map price_contract cs), <- price_batch_map. apply firstn_all.
Qed.

(** X28.  Every contract that the benchmark generates satisfies the
    precondition of the kernel, whatever the random draws within the ranges
    of its four distributions: the batch has [n] contracts, calls at the
    even positions and puts at the odd ones, and each of the [n] prices is
    finite and positive. *)
Theorem X28_bench_contracts_valid (n : nat) (draw : nat -> R * R * R * R) :
  (forall i : nat, (i < n)%nat -> bench_draw_in_range (draw i)) ->
  length (price_batch (bench_contracts n draw)) = n /\
  forall i : nat, (i < n)%nat ->
    exists (c : Contract) (x : R),
      nth_error (bench_contracts n draw) i = Some c /\
      Contract.option_type c = (if Nat.even i then CALL else PUT) /\
      contract_valid c /\
      nth_error (price_batch (bench_contracts n draw)) i = Some (Finite x) /\ 0 < x.
Proof.
  intros Hdraw. split.
  - rewrite price_batch_map, length_map. unfold bench_contracts.
    rewrite length_map, length_seq. reflexivity.
  - intros i Hi.
    assert (Hnth : nth_error (bench_contracts n draw) i
                   = Some (let '(spot, strike, vol, expiry) := draw i in
                           bench_contract i spot strike vol expiry)).
    { unfold bench_contracts. rewrite nth_error_map.
      rewrite nth_error_seq.
      assert (Hlt : Nat.ltb i n = true) by (apply Nat.ltb_lt; exact Hi).
      rewrite Hlt. reflexivity. }
    specialize (Hdraw i Hi). destruct (draw i) as [[[spot strike] vol] expiry].
    cbn in Hdraw. destruct Hdraw as (H1 & H2 & H3 & H4).
    assert (Hv : contract_valid (bench_contract i spot strike vol expiry)).
    { exists spot, strike, 0.05, vol, expiry. unfold valid_input. cbn.
      repeat split; try reflexivity; lra. }
    destruct (price_contract_valid _ Hv) as (x & Hx & Hpos).
    exists (bench_contract i spot strike vol expiry), x.
    split; [exact Hnth |]. split; [reflexivity |]. split; [exact Hv |].
    rewrite price_batch_map, nth_error_map, Hnth. cbn [option_map].
    rewrite Hx. split; [reflexivity | exact Hpos].
Qed.

Lemma X28_witness :
  (forall i : nat, (i < 2)%nat -> bench_draw_in_range ((fun _ => (100, 100, 0.2, 1)) i)) /\
  length (price_batch (bench_contracts 2 (fun _ => (100, 100, 0.2, 1)))) = 2%nat.
Proof.
  assert (H : forall i : nat, (i < 2)%nat ->
                bench_draw_in_range ((fun _ => (100, 100, 0.2, 1)) i)).
  { intros i _. cbn. lra. }
  split; [exact H |].
  apply (X28_bench_contracts_valid 2 (fun _ => (100, 100, 0.2, 1)) H).
Defined.
